(** * Hangman client/server: wire protocol and session state machines

    A shallow embedding of [hangman_server.c] and [hangman_client.c].

    Bytes ([unsigned char], [char], [uint8_t]) are integers in [0, 256),
    carried as [Z].  A TCP connection is seen from one endpoint as the
    bytes the peer will still deliver before it closes ([inp]), the bytes
    this endpoint has handed to the kernel so far ([out]) and the number of
    bytes the kernel will still take before [send] starts failing
    ([quota], [None] for a connection that never fails on write). *)

From Stdlib Require Import String Ascii ZArith List Bool Lia.
Import ListNotations.
Local Open Scope Z_scope.

(** ** Transport: [recv], [recv_all], [send_all] (identical in both files) *)

Record conn := mkConn {
  inp   : list Z;
  out   : list Z;
  quota : option nat
}.

Definition set_inp (c : conn) (i : list Z) : conn := mkConn i (out c) (quota c).

(** [recv(fd, &b, 1, 0)]: one byte, or [n <= 0] once the peer has closed. *)
Definition recv1 (c : conn) : option Z * conn :=
  match inp c with
  | [] => (None, c)
  | b :: rest => (Some b, set_inp c rest)
  end.

(** [recv_all]: exactly [len] bytes, or -1 ([None]) when the stream ends
    first; the bytes that did arrive are consumed either way. *)
Definition recv_all (len : Z) (c : conn) : option (list Z) * conn :=
  let n := Z.to_nat len in
  if (n <=? length (inp c))%nat
  then (Some (firstn n (inp c)), set_inp c (skipn n (inp c)))
  else (None, set_inp c []).

(** [send_all]: 0 when every byte was taken, -1 when [send] failed; the
    bytes taken before the failure stay sent. *)
Definition send_all (buf : list Z) (c : conn) : Z * conn :=
  match quota c with
  | None => (0, mkConn (inp c) (out c ++ buf) None)
  | Some q =>
      if (length buf <=? q)%nat
      then (0, mkConn (inp c) (out c ++ buf) (Some (q - length buf)%nat))
      else (-1, mkConn (inp c) (out c ++ firstn q buf) (Some 0%nat))
  end.

(** ** C library pieces, "C" locale *)

Definition isalpha (c : Z) : bool :=
  ((65 <=? c) && (c <=? 90)) || ((97 <=? c) && (c <=? 122)).

Definition tolower (c : Z) : Z :=
  if (65 <=? c) && (c <=? 90) then c + 32 else c.

(** A string literal as the bytes of a C string (no terminator). *)
Definition bytes_of (s : string) : list Z :=
  map (fun a => Z.of_N (N_of_ascii a)) (list_ascii_of_string s).

Definition strlen (s : list Z) : Z := Z.of_nat (length s).

(** [fgets(line, size, f)]: at most [size - 1] bytes, stopping after a
    newline; [None] at end of file. *)
Fixpoint fgets_aux (n : nat) (f : list Z) : list Z * list Z :=
  match n, f with
  | S n', c :: f' =>
      if c =? 10 then ([c], f')
      else let (l, r) := fgets_aux n' f' in (c :: l, r)
  | _, _ => ([], f)
  end.

Definition fgets (size : nat) (f : list Z) : option (list Z * list Z) :=
  match f with
  | [] => None
  | _ => Some (fgets_aux (size - 1) f)
  end.

(** The C string held in a buffer: the bytes before the first NUL. *)
Fixpoint c_str (buf : list Z) : list Z :=
  match buf with
  | [] => []
  | c :: rest => if c =? 0 then [] else c :: c_str rest
  end.

(** [memcmp(a, b, n) == 0] *)
Fixpoint bytes_eqb (a b : list Z) : bool :=
  match a, b with
  | [], [] => true
  | x :: a', y :: b' => (x =? y) && bytes_eqb a' b'
  | _, _ => false
  end.

Definition memcmp_eq (a b : list Z) (n : Z) : bool :=
  bytes_eqb (firstn (Z.to_nat n) a) (firstn (Z.to_nat n) b).

(** ** The server, [hangman_server.c] *)

Module Server.

Definition MAX_CLIENTS   : Z := 3.
Definition MAX_WORDS     : Z := 1024.
Definition MAX_WORD_LEN  : Z := 16.
Definition MAX_INCORRECT : Z := 8.

(** *** [load_words] *)

(** The newline-stripping scan: the line up to the first NUL, LF or CR. *)
Fixpoint strip_newline (line : list Z) : list Z :=
  match line with
  | [] => []
  | c :: rest =>
      if (c =? 0) || (c =? 10) || (c =? 13) then []
      else c :: strip_newline rest
  end.

(** The body of the reading loop for one line: [Some w] when a word is
    stored, [None] when the line is skipped by a [continue]. *)
Definition load_line (line : list Z) : option (list Z) :=
  let l := strip_newline line in
  let len := strlen l in
  if len =? 0 then None
  else if MAX_WORD_LEN <? len then None
  else if negb (forallb isalpha l) then None
  else Some (map tolower l).

(** The reading loop; [fuel] bounds the number of [fgets] calls, each of
    which consumes at least one byte of a non-empty file. *)
Fixpoint load_loop (fuel : nat) (f : list Z) (words : list (list Z))
  : list (list Z) :=
  match fuel with
  | O => words
  | S fuel' =>
      if negb (Z.of_nat (length words) <? MAX_WORDS) then words
      else match fgets 256 f with
           | None => words
           | Some (line, f') =>
               match load_line line with
               | None => load_loop fuel' f' words
               | Some w => load_loop fuel' f' (words ++ [w])
               end
           end
  end.

(** [load_words]: [None] is [exit(1)] on an empty table. *)
Definition load_words (file : list Z) : option (list (list Z)) :=
  let words := load_loop (length file) file [] in
  match words with
  | [] => None
  | _ => Some words
  end.

(** *** Packet encoders *)

Definition send_message_packet (msg : list Z) (c : conn) : Z * conn :=
  let len := if 255 <? strlen msg then 255 else strlen msg in
  let header := len in
  let (r1, c1) := send_all [header] c in
  if r1 <? 0 then (-1, c1)
  else if 0 <? len then
    let (r2, c2) := send_all (firstn (Z.to_nat len) msg) c1 in
    if r2 <? 0 then (-1, c2) else (0, c2)
  else (0, c1).

(** [masked] and [incorrect] are the arrays, of which the first
    [word_len] and [num_incorrect] entries are copied. *)
Definition send_game_state (masked incorrect : list Z)
    (word_len num_incorrect : Z) (c : conn) : Z * conn :=
  if (word_len =? 0) || (MAX_WORD_LEN <? word_len) then (-1, c)
  else
    let header := [0; word_len; num_incorrect] in
    if MAX_WORD_LEN + MAX_WORD_LEN <? word_len + num_incorrect then (-1, c)
    else
      let data := firstn (Z.to_nat word_len) masked
                  ++ firstn (Z.to_nat num_incorrect) incorrect in
      let (r1, c1) := send_all header c in
      if r1 <? 0 then (-1, c1)
      else
        let (r2, c2) := send_all data c1 in
        if r2 <? 0 then (-1, c2) else (0, c2).

(** *** Per-client session

    [secret] is the chosen row of the word table (at most [MAX_WORD_LEN]
    bytes, so the cast of its length to [unsigned char] is exact);
    [masked] holds the first [word_len] entries of the array of that
    name, [incorrect] the first [num_incorrect] entries of the other. *)

Record session := mkSession {
  secret    : list Z;
  masked    : list Z;
  incorrect : list Z;
  io        : conn
}.

Definition word_len (s : session) : Z := strlen (secret s).
Definition num_incorrect (s : session) : Z := Z.of_nat (length (incorrect s)).

Definition set_io (s : session) (c : conn) : session :=
  mkSession (secret s) (masked s) (incorrect s) c.

Definition placeholder : Z := 95.

(** The two search loops that set [already_guessed]. *)
Definition already_guessed (masked incorrect : list Z) (letter : Z) : bool :=
  if existsb (fun m => m =? letter) masked then true
  else existsb (fun x => x =? letter) incorrect.

(** The reveal loop: [masked[i] = letter] wherever [secret[i] == letter]. *)
Fixpoint reveal (secret masked : list Z) (letter : Z) : list Z :=
  match secret, masked with
  | c :: secret', m :: masked' =>
      (if c =? letter then letter else m) :: reveal secret' masked' letter
  | _, _ => masked
  end.

Definition found (secret : list Z) (letter : Z) : bool :=
  existsb (fun c => c =? letter) secret.

(** The state update of one guess, after [tolower]. *)
Definition apply_guess (s : session) (letter : Z) : session :=
  if already_guessed (masked s) (incorrect s) letter then s
  else if found (secret s) letter
  then mkSession (secret s) (reveal (secret s) (masked s) letter)
                 (incorrect s) (io s)
  else if num_incorrect s <? MAX_INCORRECT
  then mkSession (secret s) (masked s) (incorrect s ++ [letter]) (io s)
  else s.

Definition all_revealed (masked : list Z) : bool :=
  forallb (fun m => negb (m =? placeholder)) masked.

(** The [snprintf] loop that builds ["The word was c a t"]. *)
Definition word_msg (secret : list Z) : list Z :=
  bytes_of "The word was" ++ flat_map (fun c => [32; c]) secret.

(** The three final packets, sent with their results ignored. *)
Definition send_final (verdict : string) (s : session) : session :=
  let c1 := snd (send_message_packet (word_msg (secret s)) (io s)) in
  let c2 := snd (send_message_packet (bytes_of verdict) c1) in
  let c3 := snd (send_message_packet (bytes_of "Game Over!") c2) in
  set_io s c3.

(** The drain loop of an invalid guess packet. *)
Fixpoint drain (fuel : nat) (remaining : Z) (c : conn) : conn :=
  match fuel with
  | O => c
  | S fuel' =>
      if 0 <? remaining then
        let chunk := if remaining <? 256 then remaining else 256 in
        match recv_all chunk c with
        | (None, c') => c'
        | (Some _, c') => drain fuel' (remaining - chunk) c'
        end
      else c
  end.

(** Which [break] ended the guess loop. *)
Inductive exit := Closed | Won | Lost | SendFailed.

Inductive outcome :=
| Continue (s : session)
| Break (e : exit) (s : session).

(** One pass through the body of the guess loop. *)
Definition loop_iter (s : session) : outcome :=
  match recv1 (io s) with
  | (None, c) => Break Closed (set_io s c)
  | (Some guess_len, c1) =>
      if negb (guess_len =? 1) then
        Continue (set_io s (drain (Z.to_nat guess_len) guess_len c1))
      else
        match recv_all 1 c1 with
        | (Some [letter], c2) =>
            let letter := tolower letter in
            let s1 := apply_guess (set_io s c2) letter in
            if all_revealed (masked s1) then Break Won (send_final "You Win!" s1)
            else if MAX_INCORRECT <=? num_incorrect s1
            then Break Lost (send_final "You Lose." s1)
            else
              let (r, c3) := send_game_state (masked s1) (incorrect s1)
                               (word_len s1) (num_incorrect s1) (io s1) in
              if r <? 0 then Break SendFailed (set_io s1 c3)
              else Continue (set_io s1 c3)
        | (_, c2) => Break Closed (set_io s c2)
        end
  end.

(** The guess loop; [None] only when [fuel] runs out. *)
Fixpoint guess_loop (fuel : nat) (s : session) : option (exit * session) :=
  match fuel with
  | O => None
  | S fuel' =>
      match loop_iter s with
      | Continue s' => guess_loop fuel' s'
      | Break e s' => Some (e, s')
      end
  end.

(** The part of [handle_client] before the guess loop.  [rnd] is the value
    [rand()] returns; [inr s] is the session entering the loop, [inl c]
    the connection at an early [return].  The rows of [words] are those
    [load_words] stores, of at most [MAX_WORD_LEN] bytes: on these the
    [unsigned char] cast of the length and the 16-entry [masked] array are
    exact, and the definition is meant for no longer row. *)
Definition start_session (words : list (list Z)) (rnd : nat) (c : conn)
  : conn + session :=
  let (r0, c0) := send_message_packet (bytes_of "Welcome to Hangman") c in
  if r0 <? 0 then inl c0
  else
    match recv1 c0 with
    | (None, c1) => inl c1
    | (Some msg_len, c1) =>
        let idx := (rnd mod length words)%nat in
        let secret := nth idx words [] in
        let word_len := strlen secret in
        let masked := repeat placeholder (Z.to_nat word_len) in
        let incorrect := [] in
        let num_incorrect := 0 in
        let (r, c2) := send_game_state masked incorrect word_len num_incorrect c1 in
        if r <? 0 then inl c2
        else inr (mkSession secret masked incorrect c2)
    end.

(** [handle_client]: the connection when the handler returns.  Every pass
    of the loop that continues consumes a byte, so the fuel suffices. *)
Definition handle_client (words : list (list Z)) (rnd : nat) (c : conn) : conn :=
  match start_session words rnd c with
  | inl c' => c'
  | inr s =>
      match guess_loop (S (length (inp (io s)))) s with
      | Some (_, s') => io s'
      | None => io s
      end
  end.

End Server.

(** ** The client, [hangman_client.c]

    The console is the bytes still to be read from standard input and the
    bytes written to standard output; diagnostics on standard error are
    left out. *)

Module Client.

Record client := mkClient {
  sock   : conn;
  stdin  : list Z;
  stdout : list Z
}.

Definition set_sock (w : client) (c : conn) : client :=
  mkClient c (stdin w) (stdout w).
Definition set_stdin (w : client) (i : list Z) : client :=
  mkClient (sock w) i (stdout w).
Definition print (w : client) (text : list Z) : client :=
  mkClient (sock w) (stdin w) (stdout w ++ text).

(** The bytes of a [%c]-loop that puts one space between entries. *)
Fixpoint spaced (l : list Z) : list Z :=
  match l with
  | [] => []
  | [x] => [x]
  | x :: rest => x :: 32 :: spaced rest
  end.

(** What the game-control branch prints for a board. *)
Definition board_text (word_state incorrect : list Z) : list Z :=
  bytes_of ">>>" ++ spaced word_state ++ [10]
  ++ bytes_of ">>>Incorrect Guesses:"
  ++ (if 0 <? strlen incorrect then 32 :: spaced incorrect else []) ++ [10]
  ++ bytes_of ">>>" ++ [10].

(** [printf(">>>%.*s\n", msg_flag, data)] *)
Definition message_text (msg_flag : Z) (data : list Z) : list Z :=
  bytes_of ">>>" ++ c_str (firstn (Z.to_nat msg_flag) data) ++ [10].

(** A packet as the receiver has it in its local variables. *)
Inductive packet :=
| Message (msg_flag : Z) (data : list Z)
| GameControl (word_len num_incorrect : Z) (word_state incorrect : list Z).

(** The receiving half of [recv_and_print_one_packet]: every [recv_all]
    and every check that makes it return -1 ([None]). *)
Definition recv_one_packet (c : conn) : option packet * conn :=
  match recv_all 1 c with
  | (Some [msg_flag], c1) =>
      if 0 <? msg_flag then
        match recv_all msg_flag c1 with
        | (Some data, c2) => (Some (Message msg_flag data), c2)
        | (None, c2) => (None, c2)
        end
      else
        match recv_all 2 c1 with
        | (Some [word_len; num_incorrect], c2) =>
            if 8 <? word_len then (None, c2)
            else
              let data_len := word_len + num_incorrect in
              if 16 <? data_len then (None, c2)
              else
                match recv_all data_len c2 with
                | (Some data, c3) =>
                    let word_state := firstn (Z.to_nat word_len) data in
                    let incorrect := skipn (Z.to_nat word_len) data in
                    (Some (GameControl word_len num_incorrect
                                       word_state incorrect), c3)
                | (None, c3) => (None, c3)
                end
        | (_, c2) => (None, c2)
        end
  | (_, c1) => (None, c1)
  end.

(** The classifying and printing half: return code and printed text. *)
Definition classify_and_print (p : packet) : Z * list Z :=
  match p with
  | Message msg_flag data =>
      let over := bytes_of "server-overloaded" in
      let over_len := strlen over in
      let game_over := bytes_of "Game Over!" in
      let game_over_len := strlen game_over in
      if (msg_flag =? over_len) && memcmp_eq data over over_len
      then (1, message_text msg_flag data)
      else if (msg_flag =? game_over_len) && memcmp_eq data game_over game_over_len
      then (2, message_text msg_flag data)
      else (4, message_text msg_flag data)
  | GameControl word_len num_incorrect word_state incorrect =>
      (3, board_text word_state incorrect)
  end.

(** [recv_and_print_one_packet]: 1 overloaded, 2 game over, 3 board,
    4 other message, -1 error. *)
Definition recv_and_print_one_packet (w : client) : Z * client :=
  match recv_one_packet (sock w) with
  | (None, c) => (-1, set_sock w c)
  | (Some p, c) =>
      let (r, text) := classify_and_print p in
      (r, print (set_sock w c) text)
  end.

(** The two reading loops of [main] have one shape: read packets until
    an error, a game over or a board, and hand back that return code. *)
Fixpoint read_packets (fuel : nat) (w : client) : option (Z * client) :=
  match fuel with
  | O => None
  | S fuel' =>
      let (r, w1) := recv_and_print_one_packet w in
      if r <? 0 then Some (r, w1)
      else if r =? 2 then Some (r, w1)
      else if r =? 3 then Some (r, w1)
      else read_packets fuel' w1
  end.

(** The guess loop of [main]; the client after [break] or [game_over]. *)
Fixpoint guess_loop (fuel : nat) (w : client) : option client :=
  match fuel with
  | O => None
  | S fuel' =>
      let w0 := print w (bytes_of ">>>Letter to guess: ") in
      match fgets 128 (stdin w0) with
      | None => Some w0
      | Some (buf, rest) =>
          let w1 := set_stdin w0 rest in
          let line := c_str buf in
          let len := strlen line in
          let line := if (0 <? len) && (last line 0 =? 10)
                      then removelast line else line in
          let len := strlen line in
          if len =? 0 then Some w1
          else if negb (len =? 1) || negb (isalpha (hd 0 line))
          then guess_loop fuel'
                 (print w1 (bytes_of ">>>Error! Please guess one letter." ++ [10]))
          else
            let guess := tolower (hd 0 line) in
            let len_byte := 1 in
            let payload := guess in
            let (r1, c1) := send_all [len_byte] (sock w1) in
            if r1 <? 0 then Some (set_sock w1 c1)
            else
              let (r2, c2) := send_all [payload] c1 in
              if r2 <? 0 then Some (set_sock w1 c2)
              else
                match read_packets (S (length (inp c2))) (set_sock w1 c2) with
                | None => None
                | Some (r, w2) =>
                    if (r <? 0) || (r =? 2) then Some w2
                    else guess_loop fuel' w2
                end
      end
  end.

(** [main] from the initial board wait on (after the start signal). *)
Definition play (w : client) : option (Z * client) :=
  match read_packets (S (length (inp (sock w)))) w with
  | None => None
  | Some (r, w1) =>
      if r <? 0 then Some (1, w1)
      else if r =? 2 then Some (0, w1)
      else
        match guess_loop (S (length (stdin w1))) w1 with
        | None => None
        | Some w2 => Some (0, w2)
        end
  end.

(** The start prompt: exit code and client at a [return], or the client
    that goes on to wait for the board. *)
Definition prompt_start (w : client) : (Z * client) + client :=
  let w0 := print w (bytes_of ">>> Ready to start game? (y/n): ") in
  match fgets 128 (stdin w0) with
  | None => inl (1, w0)
  | Some (line, rest) =>
      let w1 := set_stdin w0 rest in
      if negb (hd 0 line =? 121) && negb (hd 0 line =? 89) then inl (0, w1)
      else
        let msg_len := 0 in
        let (r, c) := send_all [msg_len] (sock w1) in
        if r <? 0 then inl (1, set_sock w1 c)
        else inr (set_sock w1 c)
  end.

(** [main] once connected: exit status and final client; [None] only if
    a loop ran out of fuel. *)
Definition main (w : client) : option (Z * client) :=
  let (r, w1) := recv_and_print_one_packet w in
  if r <? 0 then Some (1, w1)
  else if r =? 1 then Some (0, w1)
  else if r =? 2 then Some (0, w1)
  else
    match prompt_start w1 with
    | inl res => Some res
    | inr w2 => play w2
    end.

End Client.

(** ** Vocabulary of the statements *)

(** The kernel will take [n] more bytes on [c]. *)
Definition writable (n : nat) (c : conn) : Prop :=
  match quota c with
  | None => True
  | Some q => (n <= q)%nat
  end.

(** [c] after [buf] went out in full. *)
Definition sent (buf : list Z) (c : conn) : conn :=
  mkConn (inp c) (out c ++ buf)
         (option_map (fun q => (q - length buf)%nat) (quota c)).

(** The wire images of the two server packets. *)
Definition message_packet (msg : list Z) : list Z :=
  (if 255 <? strlen msg then 255 else strlen msg) :: firstn 255 msg.

Definition board_packet (masked incorrect : list Z) : list Z :=
  [0; strlen masked; strlen incorrect] ++ masked ++ incorrect.

Definition final_packets (secret : list Z) (verdict : string) : list Z :=
  message_packet (Server.word_msg secret)
  ++ message_packet (bytes_of verdict)
  ++ message_packet (bytes_of "Game Over!").

Definition placeholders (masked : list Z) : nat :=
  count_occ Z.eq_dec masked Server.placeholder.

(** A letter shown at some position of the masked word. *)
Definition revealed (letter : Z) (masked : list Z) : Prop :=
  In letter masked /\ letter <> Server.placeholder.

Definition session_of (o : Server.outcome) : Server.session :=
  match o with
  | Server.Continue s => s
  | Server.Break _ s => s
  end.

(** Sessions at the top of the guess loop: [playing s0 s] when [s] is
    reached from [s0] by passes that all continued. *)
Inductive playing (s0 : Server.session) : Server.session -> Prop :=
| playing_start : playing s0 s0
| playing_step s s' :
    playing s0 s -> Server.loop_iter s = Server.Continue s' -> playing s0 s'.

Definition in_session (s : Server.session) : Prop :=
  exists words rnd c s0,
    Server.start_session words rnd c = inr s0 /\ playing s0 s.

(** [later s s']: [s'] is [s] after some further passes of the loop, the
    last of which may be the one that breaks. *)
Inductive later : Server.session -> Server.session -> Prop :=
| later_refl s : later s s
| later_continue s s1 s2 :
    Server.loop_iter s = Server.Continue s1 -> later s1 s2 -> later s s2
| later_break s e s1 :
    Server.loop_iter s = Server.Break e s1 -> later s s1.

(** What holds of every session at the top of the guess loop. *)
Record consistent (s : Server.session) : Prop := mkConsistent {
  cons_shape : Forall2 (fun m c => m = Server.placeholder \/ m = c)
                       (Server.masked s) (Server.secret s);
  cons_hidden : In Server.placeholder (Server.masked s);
  cons_budget : Server.num_incorrect s < Server.MAX_INCORRECT;
  cons_length : 1 <= Server.word_len s <= Server.MAX_WORD_LEN;
  cons_clean : ~ In Server.placeholder (Server.incorrect s);
  cons_board : exists pre,
      out (Server.io s) =
      pre ++ board_packet (Server.masked s) (Server.incorrect s)
}.

(** ** Derived notions and sample sessions *)

Section Derived.

Import Server Client.

(** How the masked word may change: same length, shown letters stay where
    they are, no new placeholder. *)
Record mask_step (m m' : list Z) : Prop := mkMaskStep {
  step_length : length m' = length m;
  step_keeps : forall i c,
      nth_error m i = Some c -> c <> placeholder -> nth_error m' i = Some c;
  step_count : (placeholders m' <= placeholders m)%nat
}.

(** The tail of the loop body, from the win check on. *)
Definition respond (s1 : session) : outcome :=
  if all_revealed (masked s1) then Break Won (send_final "You Win!" s1)
  else if MAX_INCORRECT <=? num_incorrect s1
  then Break Lost (send_final "You Lose." s1)
  else
    let (r, c3) := send_game_state (masked s1) (incorrect s1)
                     (word_len s1) (num_incorrect s1) (io s1) in
    if r <? 0 then Break SendFailed (set_io s1 c3)
    else Continue (set_io s1 c3).

(** [n] passes that all continue. *)
Fixpoint continues (n : nat) (s : session) : option session :=
  match n with
  | O => Some s
  | S n' =>
      match loop_iter s with
      | Continue s' => continues n' s'
      | Break _ _ => None
      end
  end.

Definition welcome : list Z := message_packet (bytes_of "Welcome to Hangman").

(** The session for the word "cat" at the top of the guess loop, with
    [guesses] still to come from the client. *)
Definition cat_session (guesses : list Z) : session :=
  mkSession (bytes_of "cat") (bytes_of "___") []
    (mkConn guesses (welcome ++ board_packet (bytes_of "___") []) None).

(** One guess packet per letter. *)
Definition guess_packets (letters : string) : list Z :=
  flat_map (fun l => [1; l]) (bytes_of letters).

(** The client that has just connected to a server whose first bytes are
    [from_server], with the user about to type "y". *)
Definition eager_client (from_server more : list Z) : client :=
  mkClient (mkConn from_server [] None) (bytes_of "y" ++ 10 :: more) [].

(** The answer typed on a line: its bytes before the newline. *)
Fixpoint answer_text (line : list Z) : list Z :=
  match line with
  | [] => []
  | c :: rest => if c =? 10 then [] else c :: answer_text rest
  end.

(** The spec's reading of an affirmative answer: the answer is the
    letter y, in either case. *)
Definition affirmative_y (line : list Z) : bool :=
  bytes_eqb (map tolower (answer_text line)) (bytes_of "y").

(** The spec's account of the prompt: the start signal goes out exactly
    for such an answer, and for any other nothing is sent and the client
    is done. *)
Definition start_prompt_as_specified (w : client) : Prop :=
  forall line rest,
    fgets 128 (stdin w) = Some (line, rest) ->
    if affirmative_y line
    then exists w', prompt_start w = inr w' /\
                    out (sock w') = out (sock w) ++ [0]
    else exists w', prompt_start w = inl (0, w') /\
                    out (sock w') = out (sock w).

Definition yellow_client : client :=
  mkClient (mkConn [] [] None) (bytes_of "yellow" ++ [10]) [].

End Derived.

(** ** Further notions: game fields, progress, the accept loop *)

(** The three fields a guess can change. *)
Definition game (s : Server.session) : list Z * list Z * list Z :=
  (Server.secret s, Server.masked s, Server.incorrect s).

(** What the incorrect list and the masked word say about the word:
    misses are distinct, none of them occurs in the word or in the masked
    word, and a letter shown anywhere is shown wherever the word has it. *)
Record sound (s : Server.session) : Prop := mkSound {
  sound_distinct : NoDup (Server.incorrect s);
  sound_absent : forall x, In x (Server.incorrect s) ->
                           ~ In x (Server.secret s) /\ ~ In x (Server.masked s);
  sound_complete : forall i c,
      In c (Server.masked s) -> c <> Server.placeholder ->
      nth_error (Server.secret s) i = Some c ->
      nth_error (Server.masked s) i = Some c
}.

(** Guesses still possible before the game must end. *)
Definition remaining (s : Server.session) : nat :=
  (placeholders (Server.masked s)
   + (Z.to_nat Server.MAX_INCORRECT - length (Server.incorrect s)))%nat.

Definition islower (c : Z) : bool := (97 <=? c) && (c <=? 122).


(** A stored word: 1 to 16 lowercase letters. *)
Definition stored_word (w : list Z) : Prop :=
  1 <= strlen w <= Server.MAX_WORD_LEN /\ forallb islower w = true.

(** The words a list of lines contributes, in order. *)
Definition words_of_lines (lines : list (list Z)) : list (list Z) :=
  flat_map (fun l => match Server.load_line (l ++ [10]) with
                     | Some w => [w]
                     | None => []
                     end) lines.

(** The bytes of a packet the client has decoded. *)
Definition packet_wire (p : Client.packet) : list Z :=
  match p with
  | Client.Message msg_flag data => msg_flag :: data
  | Client.GameControl word_len num_incorrect word_state incorrect =>
      [0; word_len; num_incorrect] ++ word_state ++ incorrect
  end.

(** The sizes the client's two receive buffers allow. *)
Definition fits_buffers (p : Client.packet) : Prop :=
  match p with
  | Client.Message msg_flag data =>
      1 <= msg_flag <= 255 /\ strlen data = msg_flag
  | Client.GameControl word_len num_incorrect word_state incorrect =>
      0 <= word_len <= 8 /\ 0 <= num_incorrect /\
      word_len + num_incorrect <= 16 /\
      strlen word_state = word_len /\ strlen incorrect = num_incorrect
  end.

Definition is_byte (b : Z) : Prop := 0 <= b < 256.

(** *** The accept loop of the server's [main]

    What the parent process does with [active_clients].  One turn of the
    loop is given what the operating system hands it: how many exited
    children each of the two [waitpid] loops collects, what [accept]
    returns, whether [fork] succeeds, and the [rand()] value of the
    child. *)

Module Acceptor.

Record turn := mkTurn {
  reaped_before : nat;
  accepted      : option conn;
  reaped_after  : nat;
  fork_ok       : bool;
  child_rand    : nat
}.

(** A [waitpid] loop that collects [n] children. *)
Fixpoint reap (n : nat) (active_clients : Z) : Z :=
  match n with
  | O => active_clients
  | S n' => reap n' (if 0 <? active_clients then active_clients - 1
                     else active_clients)
  end.

(** What became of the connection of a turn. *)
Inductive served :=
| NoClient
| Rejected (c : conn)
| ForkFailed (c : conn)
| Child (c : conn).

(** One pass of the [for (;;)] loop: the new counter, and the connection
    as the parent (or, after a [fork], the child's [handle_client])
    leaves it. *)
Definition accept_turn (words : list (list Z)) (active_clients : Z) (t : turn)
  : Z * served :=
  let active_clients := reap (reaped_before t) active_clients in
  match accepted t with
  | None => (active_clients, NoClient)
  | Some client_fd =>
      let active_clients := reap (reaped_after t) active_clients in
      if Server.MAX_CLIENTS <=? active_clients then
        (active_clients,
         Rejected (snd (Server.send_message_packet
                          (bytes_of "server-overloaded") client_fd)))
      else if negb (fork_ok t) then (active_clients, ForkFailed client_fd)
      else (active_clients + 1,
            Child (Server.handle_client words (child_rand t) client_fd))
  end.

Fixpoint accept_loop (words : list (list Z)) (active_clients : Z)
    (turns : list turn) : Z * list served :=
  match turns with
  | [] => (active_clients, [])
  | t :: turns' =>
      let (a, r) := accept_turn words active_clients t in
      let (a', rs) := accept_loop words a turns' in
      (a', r :: rs)
  end.

End Acceptor.

(** ** Transport lemmas *)

Section Transport.

Lemma firstn_strlen (l : list Z) : firstn (Z.to_nat (strlen l)) l = l.
Proof. unfold strlen. rewrite Nat2Z.id. apply firstn_all. Qed.

Lemma send_all_ok buf c :
  writable (length buf) c -> send_all buf c = (0, sent buf c).
Proof.
  unfold writable, send_all, sent. destruct (quota c) as [q|]; intros H; cbn.
  - apply Nat.leb_le in H. now rewrite H.
  - reflexivity.
Qed.

Lemma send_all_out buf c :
  exists k, out (snd (send_all buf c)) = out c ++ firstn k buf.
Proof.
  unfold send_all. destruct (quota c) as [q|].
  - destruct (length buf <=? q)%nat; cbn.
    + exists (length buf). now rewrite firstn_all.
    + now exists q.
  - exists (length buf). cbn. now rewrite firstn_all.
Qed.

Lemma send_all_inp buf c : inp (snd (send_all buf c)) = inp c.
Proof.
  unfold send_all. destruct (quota c) as [q|]; [destruct (_ <=? _)%nat|]; reflexivity.
Qed.

Lemma writable_sent a n c :
  writable (length a + n) c -> writable n (sent a c).
Proof.
  unfold writable, sent; cbn. destruct (quota c); cbn; [lia | trivial].
Qed.

Lemma writable_le n m c : (n <= m)%nat -> writable m c -> writable n c.
Proof. unfold writable. destruct (quota c); [lia | trivial]. Qed.

Lemma sent_app a b c : sent b (sent a c) = sent (a ++ b) c.
Proof.
  unfold sent; cbn. rewrite <- app_assoc. f_equal.
  destruct (quota c); cbn; [|reflexivity].
  rewrite length_app. f_equal. lia.
Qed.

Lemma recv_all_app n (pre rest : list Z) c :
  inp c = pre ++ rest -> Z.to_nat n = length pre ->
  recv_all n c = (Some pre, set_inp c rest).
Proof.
  intros Hi Hn. unfold recv_all. rewrite Hn, Hi.
  replace (length pre <=? length (pre ++ rest))%nat with true.
  - rewrite firstn_app, Nat.sub_diag, firstn_all, firstn_O, app_nil_r.
    rewrite skipn_app, Nat.sub_diag, skipn_all. reflexivity.
  - symmetry. apply Nat.leb_le. rewrite length_app. lia.
Qed.

End Transport.

(** ** The server's encoders on a connection that takes the bytes *)

Section Encoders.

Import Server.

Lemma message_packet_length msg :
  (length (message_packet msg) <= 256)%nat.
Proof.
  unfold message_packet. cbn [length]. rewrite length_firstn. lia.
Qed.

Lemma send_message_packet_ok msg c :
  writable (length (message_packet msg)) c ->
  send_message_packet msg c = (0, sent (message_packet msg) c).
Proof.
  intros W. unfold send_message_packet, message_packet in *.
  set (len := if 255 <? strlen msg then 255 else strlen msg) in *.
  assert (Hf : firstn (Z.to_nat len) msg = firstn 255 msg).
  { subst len. unfold strlen. destruct (255 <? _) eqn:E.
    - reflexivity.
    - apply Z.ltb_ge in E. unfold strlen in E. rewrite Nat2Z.id, firstn_all.
      symmetry. apply firstn_all2. lia. }
  cbn [length] in W.
  rewrite send_all_ok by (eapply writable_le; [|exact W]; cbn; lia).
  cbn [Z.ltb Z.compare].
  destruct (0 <? len) eqn:E.
  - rewrite send_all_ok, Hf.
    + cbn [Z.ltb Z.compare]. now rewrite sent_app.
    + apply writable_sent. now rewrite Hf.
  - assert (msg = []) as ->.
    { subst len. unfold strlen in E. destruct msg; [reflexivity|].
      destruct (255 <? _); [discriminate|]. apply Z.ltb_ge in E.
      cbn [length] in E. lia. }
    reflexivity.
Qed.

Lemma send_message_packet_inp msg c :
  inp (snd (send_message_packet msg c)) = inp c.
Proof.
  unfold send_message_packet.
  destruct (send_all [_] c) as [r1 c1] eqn:E1.
  assert (H1 : inp c1 = inp c) by (apply (f_equal snd) in E1; cbn in E1; subst c1; apply send_all_inp).
  destruct (r1 <? 0); [exact H1|].
  destruct (0 <? _); [|exact H1].
  destruct (send_all _ c1) as [r2 c2] eqn:E2.
  assert (H2 : inp c2 = inp c1) by (apply (f_equal snd) in E2; cbn in E2; subst c2; apply send_all_inp).
  destruct (r2 <? 0); cbn; congruence.
Qed.

Lemma send_game_state_ok masked incorrect c :
  1 <= strlen masked <= MAX_WORD_LEN ->
  strlen incorrect <= MAX_WORD_LEN ->
  writable (length (board_packet masked incorrect)) c ->
  send_game_state masked incorrect (strlen masked) (strlen incorrect) c
  = (0, sent (board_packet masked incorrect) c).
Proof.
  unfold MAX_WORD_LEN. intros Hm Hi W. unfold send_game_state, MAX_WORD_LEN.
  replace ((strlen masked =? 0) || (16 <? strlen masked)) with false
    by (symmetry; apply orb_false_iff; split; [apply Z.eqb_neq | apply Z.ltb_ge]; lia).
  replace (16 + 16 <? strlen masked + strlen incorrect) with false
    by (symmetry; apply Z.ltb_ge; lia).
  rewrite !firstn_strlen.
  unfold board_packet in *. rewrite length_app in W.
  rewrite send_all_ok by (eapply writable_le; [|exact W]; lia).
  cbn [Z.ltb Z.compare].
  rewrite send_all_ok by (now apply writable_sent).
  cbn [Z.ltb Z.compare]. now rewrite sent_app.
Qed.

Lemma send_game_state_eq masked incorrect wl ni c :
  wl = strlen masked -> ni = strlen incorrect ->
  1 <= strlen masked <= MAX_WORD_LEN ->
  strlen incorrect <= MAX_WORD_LEN ->
  writable (length (board_packet masked incorrect)) c ->
  send_game_state masked incorrect wl ni c
  = (0, sent (board_packet masked incorrect) c).
Proof. intros -> ->. apply send_game_state_ok. Qed.

Lemma send_game_state_inp masked incorrect wl ni c :
  inp (snd (send_game_state masked incorrect wl ni c)) = inp c.
Proof.
  unfold send_game_state.
  destruct (_ || _); [reflexivity|].
  destruct (_ <? _); [reflexivity|].
  destruct (send_all [_; _; _] c) as [r1 c1] eqn:E1.
  assert (H1 : inp c1 = inp c) by (apply (f_equal snd) in E1; cbn in E1; subst c1; apply send_all_inp).
  destruct (r1 <? 0); [exact H1|].
  destruct (send_all _ c1) as [r2 c2] eqn:E2.
  assert (H2 : inp c2 = inp c1) by (apply (f_equal snd) in E2; cbn in E2; subst c2; apply send_all_inp).
  destruct (r2 <? 0); cbn; congruence.
Qed.

(** A board goes out in full exactly when [send_game_state] returns 0. *)
Lemma send_game_state_zero masked incorrect c r c' :
  send_game_state masked incorrect (strlen masked) (strlen incorrect) c = (r, c') ->
  (r <? 0) = false ->
  1 <= strlen masked <= MAX_WORD_LEN /\
  out c' = out c ++ board_packet masked incorrect.
Proof.
  unfold send_game_state, MAX_WORD_LEN.
  destruct (_ || _) eqn:G1; [intros [= <- <-]; discriminate|].
  destruct (16 + 16 <? _) eqn:G2; [intros [= <- <-]; discriminate|].
  apply orb_false_iff in G1 as [G1a G1b].
  apply Z.eqb_neq in G1a. apply Z.ltb_ge in G1b.
  rewrite !firstn_strlen.
  unfold send_all; destruct (quota c) as [q|] eqn:Q.
  - change (length [0; strlen masked; strlen incorrect]) with 3%nat.
    destruct (3 <=? q)%nat eqn:L1; cbn [Z.ltb Z.compare quota inp out].
    2:{ intros [= <- <-]; discriminate. }
    destruct (length (masked ++ incorrect) <=? _)%nat eqn:L2; cbn [Z.ltb Z.compare].
    2:{ intros [= <- <-]; discriminate. }
    intros [= <- <-] _. cbn [out].
    split; [unfold strlen in *; lia|]. unfold board_packet.
    now rewrite <- app_assoc.
  - cbn [Z.ltb Z.compare quota inp out]. intros [= <- <-] _. cbn [out].
    split; [unfold strlen in *; lia|]. unfold board_packet.
    now rewrite <- app_assoc.
Qed.

End Encoders.

(** ** The guess update on the masked word *)

Section Masking.

Import Server.

Lemma mask_step_refl m : mask_step m m.
Proof. split; auto. Qed.

Lemma mask_step_trans m1 m2 m3 :
  mask_step m1 m2 -> mask_step m2 m3 -> mask_step m1 m3.
Proof.
  intros [L1 K1 C1] [L2 K2 C2]. split.
  - congruence.
  - intros i c Hi Hc. apply K2; auto.
  - lia.
Qed.

Lemma existsb_eqb_In (l : list Z) x :
  existsb (fun y => y =? x) l = true <-> In x l.
Proof.
  rewrite existsb_exists. split.
  - intros (y & Hy & E). apply Z.eqb_eq in E. now subst.
  - intros H. exists x. split; [assumption | apply Z.eqb_refl].
Qed.

Lemma already_guessed_spec m inc letter :
  already_guessed m inc letter = true <-> In letter m \/ In letter inc.
Proof.
  unfold already_guessed.
  destruct (existsb _ m) eqn:E.
  - apply existsb_eqb_In in E. tauto.
  - rewrite existsb_eqb_In. split; [tauto|].
    intros [H|H]; [|assumption].
    apply existsb_eqb_In in H. congruence.
Qed.

Lemma all_revealed_false m :
  all_revealed m = false <-> In placeholder m.
Proof.
  unfold all_revealed. induction m as [|x m IH]; cbn.
  - split; [discriminate | contradiction].
  - destruct (x =? placeholder) eqn:E; cbn.
    + apply Z.eqb_eq in E. tauto.
    + apply Z.eqb_neq in E. rewrite IH. split; [tauto|].
      intros [H|H]; [congruence | assumption].
Qed.

Lemma all_revealed_true m :
  all_revealed m = true <-> placeholders m = 0%nat.
Proof.
  unfold placeholders. rewrite <- count_occ_not_In.
  rewrite <- all_revealed_false. destruct (all_revealed m); split; congruence.
Qed.

Lemma shape_length (m sec : list Z) :
  Forall2 (fun x c => x = placeholder \/ x = c) m sec -> strlen m = strlen sec.
Proof.
  intros H. unfold strlen. f_equal. induction H; cbn; congruence.
Qed.

Lemma reveal_shape sec m letter :
  Forall2 (fun x c => x = placeholder \/ x = c) m sec ->
  Forall2 (fun x c => x = placeholder \/ x = c) (reveal sec m letter) sec.
Proof.
  induction 1 as [|x c m sec Hx Hrest IH]; cbn; constructor; auto.
  destruct (c =? letter) eqn:E; [|assumption].
  apply Z.eqb_eq in E. auto.
Qed.

Lemma reveal_mask_step sec m letter :
  Forall2 (fun x c => x = placeholder \/ x = c) m sec ->
  ~ In letter m -> letter <> placeholder ->
  mask_step m (reveal sec m letter).
Proof.
  intros Hs Hnot Hl. induction Hs as [|x c m sec Hx Hrest IH].
  - apply mask_step_refl.
  - destruct IH as [IL IK IC]; [intros H; apply Hnot; now right|].
    cbn [reveal]. split.
    + cbn. congruence.
    + intros [|i] y; cbn.
      * intros [= ->] Hy. f_equal.
        destruct (c =? letter) eqn:E; [|reflexivity].
        apply Z.eqb_eq in E. destruct Hx as [Hx|Hx]; [contradiction|].
        exfalso. apply Hnot. left. congruence.
      * apply IK.
    + unfold placeholders in *. cbn [count_occ].
      destruct (c =? letter).
      * destruct (Z.eq_dec letter placeholder); [contradiction|].
        destruct (Z.eq_dec x placeholder); lia.
      * destruct (Z.eq_dec x placeholder); lia.
Qed.

Lemma apply_guess_secret s letter : secret (apply_guess s letter) = secret s.
Proof.
  unfold apply_guess.
  destruct (already_guessed _ _ _); [reflexivity|].
  destruct (found _ _); [reflexivity|].
  destruct (_ <? _); reflexivity.
Qed.

Lemma apply_guess_io s letter : io (apply_guess s letter) = io s.
Proof.
  unfold apply_guess.
  destruct (already_guessed _ _ _); [reflexivity|].
  destruct (found _ _); [reflexivity|].
  destruct (_ <? _); reflexivity.
Qed.

Lemma apply_guess_known s letter :
  In letter (masked s) \/ In letter (incorrect s) ->
  apply_guess s letter = s.
Proof.
  intros H. apply already_guessed_spec in H. unfold apply_guess. now rewrite H.
Qed.

Lemma apply_guess_budget s letter :
  num_incorrect s <= MAX_INCORRECT ->
  num_incorrect (apply_guess s letter) <= MAX_INCORRECT.
Proof.
  intros H. unfold apply_guess.
  destruct (already_guessed _ _ _); [assumption|].
  destruct (found _ _); [assumption|].
  destruct (_ <? _) eqn:E; [|assumption].
  apply Z.ltb_lt in E. unfold num_incorrect in *. cbn [incorrect].
  rewrite length_app. cbn [length]. lia.
Qed.

Lemma apply_guess_mask_step s letter :
  Forall2 (fun x c => x = placeholder \/ x = c) (masked s) (secret s) ->
  In placeholder (masked s) ->
  mask_step (masked s) (masked (apply_guess s letter)).
Proof.
  intros Hs Hp. unfold apply_guess.
  destruct (already_guessed _ _ _) eqn:A; [apply mask_step_refl|].
  destruct (found _ _).
  - cbn [masked]. apply reveal_mask_step; [assumption| |].
    + intros H. assert (already_guessed (masked s) (incorrect s) letter = true)
        by (apply already_guessed_spec; now left). congruence.
    + intros ->. assert (already_guessed (masked s) (incorrect s) placeholder = true)
        by (apply already_guessed_spec; now left). congruence.
  - destruct (_ <? _); apply mask_step_refl.
Qed.

Lemma apply_guess_shape s letter :
  Forall2 (fun x c => x = placeholder \/ x = c) (masked s) (secret s) ->
  Forall2 (fun x c => x = placeholder \/ x = c)
          (masked (apply_guess s letter)) (secret (apply_guess s letter)).
Proof.
  intros Hs. unfold apply_guess.
  destruct (already_guessed _ _ _); [assumption|].
  destruct (found _ _).
  - cbn [masked secret]. now apply reveal_shape.
  - destruct (_ <? _); assumption.
Qed.

Lemma apply_guess_clean s letter :
  In placeholder (masked s) ->
  ~ In placeholder (incorrect s) ->
  ~ In placeholder (incorrect (apply_guess s letter)).
Proof.
  intros Hp Hc. unfold apply_guess.
  destruct (already_guessed _ _ _) eqn:A; [assumption|].
  destruct (found _ _); [assumption|].
  destruct (_ <? _); [|assumption].
  cbn [incorrect]. rewrite in_app_iff. intros [H|[H|[]]]; [contradiction|].
  subst letter.
  assert (already_guessed (masked s) (incorrect s) placeholder = true)
    by (apply already_guessed_spec; now left). congruence.
Qed.

End Masking.

(** ** One pass of the guess loop, case by case *)

Section LoopBody.

Import Server.

Lemma set_io_same s : set_io s (io s) = s.
Proof. now destruct s. Qed.

Lemma set_inp_same c : set_inp c (inp c) = c.
Proof. now destruct c. Qed.

Lemma loop_iter_eof s :
  inp (io s) = [] -> loop_iter s = Break Closed s.
Proof.
  intros H. unfold loop_iter, recv1. rewrite H. now rewrite set_io_same.
Qed.

Lemma loop_iter_malformed s L rest :
  inp (io s) = L :: rest -> L <> 1 ->
  loop_iter s
  = Continue (set_io s (drain (Z.to_nat L) L (set_inp (io s) rest))).
Proof.
  intros H HL. unfold loop_iter, recv1. rewrite H.
  apply Z.eqb_neq in HL. now rewrite HL.
Qed.

Lemma loop_iter_truncated s :
  inp (io s) = [1] -> exists c, loop_iter s = Break Closed (set_io s c) /\ inp c = []
                                /\ out c = out (io s).
Proof.
  intros H. unfold loop_iter, recv1. rewrite H. cbn.
  eexists. split; [reflexivity|]. split; reflexivity.
Qed.

Lemma loop_iter_guess s c rest :
  inp (io s) = 1 :: c :: rest ->
  loop_iter s
  = respond (apply_guess (set_io s (set_inp (io s) rest)) (tolower c)).
Proof.
  intros H. unfold loop_iter, recv1. rewrite H. cbn. reflexivity.
Qed.

(** The four shapes the input can have at the top of the loop. *)
Lemma input_cases (i : list Z) :
  i = [] \/ (exists L rest, i = L :: rest /\ L <> 1) \/ i = [1]
  \/ exists c rest, i = 1 :: c :: rest.
Proof.
  destruct i as [|L rest]; [now left|].
  destruct (Z.eq_dec L 1) as [->|N].
  - destruct rest as [|c rest]; [right; right; now left|].
    right; right; right. now exists c, rest.
  - right; left. now exists L, rest.
Qed.

Lemma drain_out fuel remaining c :
  out (drain fuel remaining c) = out c /\ quota (drain fuel remaining c) = quota c
  /\ (length (inp (drain fuel remaining c)) <= length (inp c))%nat.
Proof.
  revert remaining c. induction fuel as [|fuel IH]; intros remaining c; cbn.
  - auto.
  - destruct (0 <? remaining); [|auto].
    unfold recv_all. destruct (_ <=? _)%nat.
    + destruct (IH (remaining - (if remaining <? 256 then remaining else 256))
                   (set_inp c (skipn (Z.to_nat
                      (if remaining <? 256 then remaining else 256)) (inp c))))
        as (A & B & C).
      rewrite A, B. cbn [out quota set_inp]. repeat split; auto.
      etransitivity; [exact C|]. cbn [inp set_inp]. rewrite length_skipn. lia.
    + cbn. repeat split; auto. lia.
Qed.

Lemma drain_exact L (payload rest : list Z) c :
  0 <= L < 256 -> inp c = payload ++ rest -> strlen payload = L ->
  drain (Z.to_nat L) L c = set_inp c rest.
Proof.
  intros HL Hi Hp. destruct (Z.to_nat L) as [|fuel] eqn:F.
  - assert (payload = []) as ->.
    { unfold strlen in Hp. destruct payload; [reflexivity|]. cbn in Hp. lia. }
    cbn in *. rewrite <- Hi. now rewrite set_inp_same.
  - cbn [drain]. replace (0 <? L) with true by (symmetry; apply Z.ltb_lt; lia).
    replace (L <? 256) with true by (symmetry; apply Z.ltb_lt; lia).
    rewrite (recv_all_app L payload rest c Hi)
      by (unfold strlen in Hp; lia).
    rewrite Z.sub_diag. destruct fuel; reflexivity.
Qed.

Lemma send_final_fields verdict s :
  secret (send_final verdict s) = secret s /\
  masked (send_final verdict s) = masked s /\
  incorrect (send_final verdict s) = incorrect s /\
  inp (io (send_final verdict s)) = inp (io s).
Proof.
  unfold send_final. cbn. repeat split.
  now rewrite !send_message_packet_inp.
Qed.

Lemma send_final_ok verdict s :
  writable (length (final_packets (secret s) verdict)) (io s) ->
  io (send_final verdict s) = sent (final_packets (secret s) verdict) (io s).
Proof.
  intros W. unfold send_final, final_packets in *. cbn [io set_io].
  rewrite !length_app in W.
  rewrite (send_message_packet_ok (word_msg (secret s)))
    by (eapply writable_le; [|exact W]; lia).
  cbn [snd].
  rewrite (send_message_packet_ok (bytes_of verdict))
    by (apply writable_sent; eapply writable_le; [|exact W]; lia).
  cbn [snd].
  rewrite send_message_packet_ok
    by (do 2 apply writable_sent; eapply writable_le; [|exact W]; lia).
  cbn [snd]. now rewrite !sent_app.
Qed.

(** Whatever [respond] does, the game fields are those it was given. *)
Lemma respond_fields s1 :
  secret (session_of (respond s1)) = secret s1 /\
  masked (session_of (respond s1)) = masked s1 /\
  incorrect (session_of (respond s1)) = incorrect s1 /\
  inp (io (session_of (respond s1))) = inp (io s1).
Proof.
  unfold respond.
  destruct (all_revealed _); [apply send_final_fields|].
  destruct (_ <=? _); [apply send_final_fields|].
  destruct (send_game_state _ _ _ _ _) as [r c3] eqn:E.
  assert (inp c3 = inp (io s1)).
  { apply (f_equal snd) in E. cbn in E. subst c3. apply send_game_state_inp. }
  destruct (r <? 0); cbn; auto.
Qed.

End LoopBody.

(** Case split on the shape of the unread input of session [s]: closed,
    malformed packet [L :: rest], lone length byte, or guess [1 :: c :: rest]. *)
Ltac input_shape s :=
  destruct (input_cases (inp (Server.io s)))
    as [E|[(L & rest & E & N)|[E|(c & rest & E)]]].

(** ** Invariants of the session *)

Section Invariants.

Import Server.

Lemma consistent_set_io s c :
  consistent s -> out c = out (io s) -> consistent (set_io s c).
Proof.
  intros [A B C D E [pre F]] H. split; cbn [masked secret incorrect io set_io]; auto.
  exists pre. congruence.
Qed.

Lemma respond_continue s1 s' :
  Forall2 (fun x c => x = placeholder \/ x = c) (masked s1) (secret s1) ->
  respond s1 = Continue s' ->
  all_revealed (masked s1) = false /\
  num_incorrect s1 < MAX_INCORRECT /\
  1 <= word_len s1 <= MAX_WORD_LEN /\
  exists c3, s' = set_io s1 c3 /\
    out c3 = out (io s1) ++ board_packet (masked s1) (incorrect s1).
Proof.
  intros Hs. unfold respond.
  destruct (all_revealed _); [discriminate|].
  destruct (_ <=? _) eqn:B; [discriminate|].
  apply Z.leb_gt in B.
  destruct (send_game_state _ _ _ _ _) as [r c3] eqn:E.
  destruct (r <? 0) eqn:R; [discriminate|].
  intros [= <-].
  unfold word_len in *. rewrite <- (shape_length _ _ Hs) in *.
  apply send_game_state_zero in E; [|assumption].
  destruct E as [E1 E2]. repeat split; try tauto.
  now exists c3.
Qed.

Lemma pass_consistent s s' :
  consistent s -> loop_iter s = Continue s' -> consistent s'.
Proof.
  intros C H.
  input_shape s.
  - rewrite (loop_iter_eof _ E) in H. discriminate.
  - rewrite (loop_iter_malformed _ _ _ E N) in H. injection H as <-.
    apply consistent_set_io; [assumption|].
    now destruct (drain_out (Z.to_nat L) L (set_inp (io s) rest)) as (A & _).
  - destruct (loop_iter_truncated _ E) as (c & F & _). congruence.
  - rewrite (loop_iter_guess _ _ _ E) in H.
    set (s0 := set_io s (set_inp (io s) rest)) in *.
    assert (C0 : consistent s0) by (now apply consistent_set_io).
    set (s1 := apply_guess s0 (tolower c)) in *.
    assert (S1 : Forall2 (fun x c => x = placeholder \/ x = c)
                         (masked s1) (secret s1))
      by (apply apply_guess_shape, C0).
    destruct (respond_continue _ _ S1 H) as (A & B & D & c3 & -> & O).
    split; cbn [masked secret incorrect io set_io]; auto.
    + now apply all_revealed_false.
    + subst s1. apply apply_guess_clean; apply C0.
    + now exists (out (io s1)).
Qed.

Lemma start_consistent words rnd c s0 :
  start_session words rnd c = inr s0 -> consistent s0.
Proof.
  unfold start_session.
  destruct (send_message_packet _ c) as [r0 c0].
  destruct (r0 <? 0); [discriminate|].
  destruct (recv1 c0) as [[msg_len|] c1]; [|discriminate].
  set (sec := nth _ words []).
  destruct (send_game_state _ _ _ _ c1) as [r c2] eqn:E.
  destruct (r <? 0) eqn:R; [discriminate|]. intros [= <-].
  assert (L : strlen (repeat placeholder (Z.to_nat (strlen sec))) = strlen sec).
  { unfold strlen. now rewrite repeat_length, Nat2Z.id. }
  rewrite <- L in E at 2.
  apply (send_game_state_zero _ []) in E; [|assumption].
  destruct E as [E1 E2]. rewrite L in E1.
  split; cbn [masked secret incorrect io]; auto.
  - unfold strlen. rewrite Nat2Z.id. clear. induction sec; cbn; auto.
  - unfold strlen in *. destruct (length sec); [cbn in E1; lia|].
    rewrite Nat2Z.id. now left.
  - cbn. unfold MAX_INCORRECT. lia.
  - now exists (out c1).
Qed.

Lemma playing_consistent s0 s :
  consistent s0 -> playing s0 s -> consistent s.
Proof.
  intros C0. induction 1 as [|s s' _ IH H]; [assumption|].
  now apply (pass_consistent s).
Qed.

Lemma in_session_consistent s : in_session s -> consistent s.
Proof.
  intros (words & rnd & c & s0 & St & P).
  eapply playing_consistent; [|exact P]. eapply start_consistent, St.
Qed.

(** What one pass, whichever way it ends, does to the game fields. *)
Lemma pass_effect s o :
  consistent s -> loop_iter s = o ->
  secret (session_of o) = secret s /\
  mask_step (masked s) (masked (session_of o)) /\
  num_incorrect (session_of o) <= MAX_INCORRECT.
Proof.
  intros C <-.
  assert (B : num_incorrect s <= MAX_INCORRECT) by (destruct C; lia).
  input_shape s.
  - rewrite (loop_iter_eof _ E). cbn. auto using mask_step_refl.
  - rewrite (loop_iter_malformed _ _ _ E N). cbn. auto using mask_step_refl.
  - destruct (loop_iter_truncated _ E) as (c & -> & _). cbn.
    auto using mask_step_refl.
  - rewrite (loop_iter_guess _ _ _ E).
    destruct (respond_fields (apply_guess (set_io s (set_inp (io s) rest)) (tolower c)))
      as (F1 & F2 & F3 & _).
    rewrite F1, F2. unfold num_incorrect at 1. rewrite F3.
    fold (num_incorrect (apply_guess (set_io s (set_inp (io s) rest)) (tolower c))).
    split; [now rewrite apply_guess_secret|]. split.
    + apply (apply_guess_mask_step (set_io s (set_inp (io s) rest))); apply C.
    + now apply apply_guess_budget.
Qed.

Lemma later_effect s s' :
  consistent s -> later s s' ->
  secret s' = secret s /\ mask_step (masked s) (masked s') /\
  num_incorrect s' <= MAX_INCORRECT.
Proof.
  intros C H. induction H as [s|s s1 s2 H1 H2 IH|s e s1 H1].
  - destruct C. split; [reflexivity | split; [apply mask_step_refl | lia]].
  - destruct (pass_effect s _ C H1) as (A1 & A2 & A3). cbn in *.
    destruct IH as (B1 & B2 & B3); [now apply (pass_consistent s)|].
    split; [congruence | split; [|assumption]].
    eapply mask_step_trans; eassumption.
  - destruct (pass_effect s _ C H1) as (A1 & A2 & A3). cbn in *. auto.
Qed.

End Invariants.

(** ** Running sessions *)

Section Running.

Import Server.

Lemma in_session_step s s' :
  in_session s -> loop_iter s = Continue s' -> in_session s'.
Proof.
  intros (words & rnd & c & s0 & St & P) H.
  exists words, rnd, c, s0. split; [assumption|].
  now apply (playing_step s0 s).
Qed.

Lemma in_session_continues n s s' :
  in_session s -> continues n s = Some s' -> in_session s'.
Proof.
  revert s. induction n as [|n IH]; intros s Hs; cbn.
  - now intros [= <-].
  - destruct (loop_iter s) as [s1|] eqn:E; [|discriminate].
    apply IH. now apply (in_session_step s).
Qed.

(** With a placeholder left and fewer than eight misses, the tail of the
    loop body sends the board and continues. *)
Lemma respond_playing s1 :
  consistent s1 ->
  writable (length (board_packet (masked s1) (incorrect s1))) (io s1) ->
  respond s1
  = Continue (set_io s1 (sent (board_packet (masked s1) (incorrect s1)) (io s1))).
Proof.
  intros [A B C D E F] W. unfold respond.
  apply all_revealed_false in B. rewrite B.
  replace (MAX_INCORRECT <=? num_incorrect s1) with false
    by (symmetry; now apply Z.leb_gt).
  unfold word_len in *. rewrite <- (shape_length _ _ A) in *.
  change (num_incorrect s1) with (strlen (incorrect s1)) in *.
  rewrite send_game_state_ok; try assumption.
  - reflexivity.
  - unfold MAX_INCORRECT, MAX_WORD_LEN in *. lia.
Qed.

(** The guess loop stops at the pass that breaks. *)
Lemma guess_loop_break fuel s e s' :
  loop_iter s = Break e s' -> guess_loop (S fuel) s = Some (e, s').
Proof. intros H. cbn. now rewrite H. Qed.

Lemma guess_loop_continue fuel s s' :
  loop_iter s = Continue s' -> guess_loop (S fuel) s = guess_loop fuel s'.
Proof. intros H. cbn. now rewrite H. Qed.

(** Every pass that continues consumes input, so the loop ends in a
    [break] within [length inp + 1] passes. *)
Lemma loop_iter_consumes s s' :
  loop_iter s = Continue s' ->
  (length (inp (io s')) < length (inp (io s)))%nat.
Proof.
  intros H.
  input_shape s.
  - rewrite (loop_iter_eof _ E) in H. discriminate.
  - rewrite (loop_iter_malformed _ _ _ E N) in H. injection H as <-.
    destruct (drain_out (Z.to_nat L) L (set_inp (io s) rest)) as (_ & _ & A).
    cbn [io set_io]. rewrite E. cbn in *. lia.
  - destruct (loop_iter_truncated _ E) as (c & F & _). congruence.
  - rewrite (loop_iter_guess _ _ _ E) in H.
    destruct (respond_fields (apply_guess (set_io s (set_inp (io s) rest)) (tolower c)))
      as (_ & _ & _ & F).
    rewrite H in F. cbn [session_of] in F. rewrite F, apply_guess_io, E. cbn. lia.
Qed.

Lemma guess_loop_total fuel s :
  (length (inp (io s)) < fuel)%nat ->
  exists e s', guess_loop fuel s = Some (e, s') /\ later s s'.
Proof.
  revert s. induction fuel as [|fuel IH]; intros s Hf; [lia|].
  cbn. destruct (loop_iter s) as [s1|e s1] eqn:E.
  - destruct (IH s1) as (e & s' & G & L).
    + apply loop_iter_consumes in E. lia.
    + exists e, s'. split; [assumption|]. now apply (later_continue s s1).
  - exists e, s1. split; [reflexivity|]. now apply (later_break s e).
Qed.

End Running.

(** ** Termination: the fuel given in [handle_client] and [main] suffices *)

Section Termination.

Import Server.

Lemma handle_client_ends words rnd c s :
  start_session words rnd c = inr s ->
  exists e s',
    guess_loop (S (length (inp (io s)))) s = Some (e, s') /\
    later s s' /\
    handle_client words rnd c = io s'.
Proof.
  intros St.
  destruct (guess_loop_total (S (length (inp (io s)))) s) as (e & s' & G & L);
    [lia|].
  exists e, s'. split; [exact G|]. split; [exact L|].
  unfold handle_client. now rewrite St, G.
Qed.

Lemma recv_all_length n c :
  (length (inp (snd (recv_all n c))) <= length (inp c) - Z.to_nat n)%nat.
Proof.
  unfold recv_all. destruct (_ <=? _)%nat eqn:E; cbn.
  - now rewrite length_skipn.
  - lia.
Qed.

Lemma recv_one_packet_consumes c p c' :
  Client.recv_one_packet c = (Some p, c') ->
  (length (inp c') < length (inp c))%nat.
Proof.
  unfold Client.recv_one_packet.
  pose proof (recv_all_length 1 c) as L1.
  destruct (recv_all 1 c) as [[[|msg_flag [|? ?]]|] c1] eqn:E1;
    try discriminate.
  assert (N : (length (inp c1) < length (inp c))%nat).
  { unfold recv_all in E1. destruct (_ <=? _)%nat eqn:F; [|discriminate].
    apply Nat.leb_le in F. cbn in L1, F. lia. }
  destruct (0 <? msg_flag).
  - pose proof (recv_all_length msg_flag c1) as L2.
    destruct (recv_all msg_flag c1) as [[data|] c2]; [|discriminate].
    intros [= _ <-]. cbn in L2. lia.
  - pose proof (recv_all_length 2 c1) as L2.
    destruct (recv_all 2 c1) as [[[|wl [|ni [|? ?]]]|] c2]; try discriminate.
    destruct (8 <? wl); [discriminate|].
    destruct (16 <? wl + ni); [discriminate|].
    pose proof (recv_all_length (wl + ni) c2) as L3.
    destruct (recv_all (wl + ni) c2) as [[data|] c3]; [|discriminate].
    intros [= _ <-]. cbn in L2, L3. lia.
Qed.

Lemma read_packets_total fuel w :
  (length (inp (Client.sock w)) < fuel)%nat ->
  exists r w', Client.read_packets fuel w = Some (r, w').
Proof.
  revert w. induction fuel as [|fuel IH]; intros w Hf; [lia|].
  cbn [Client.read_packets]. unfold Client.recv_and_print_one_packet.
  destruct (Client.recv_one_packet (Client.sock w)) as [[p|] c] eqn:E.
  - apply recv_one_packet_consumes in E.
    destruct (Client.classify_and_print p) as [r text].
    destruct (r <? 0); [eauto|]. destruct (r =? 2); [eauto|].
    destruct (r =? 3); [eauto|]. apply IH. cbn. lia.
  - cbn. eauto.
Qed.

Lemma fgets_consumes size f line rest :
  (2 <= size)%nat -> fgets size f = Some (line, rest) ->
  (length rest < length f)%nat.
Proof.
  intros Hs. unfold fgets. destruct f as [|c f]; [discriminate|].
  destruct (size - 1)%nat as [|n] eqn:E; [lia|]. intros [= H].
  assert (G : forall n f l r, fgets_aux n f = (l, r) -> (length r <= length f)%nat).
  { clear. induction n as [|n IH]; intros f l r; cbn.
    - now intros [= _ <-].
    - destruct f as [|c f]; [now intros [= _ <-]|].
      destruct (c =? 10); [intros [= _ <-]; cbn; lia|].
      destruct (fgets_aux n f) as [l' r'] eqn:E. intros [= _ <-].
      apply IH in E. cbn. lia. }
  cbn in H. destruct (c =? 10); [injection H as _ <-; cbn; lia|].
  destruct (fgets_aux n f) as [l' r'] eqn:F. injection H as _ <-.
  apply G in F. cbn. lia.
Qed.

Lemma client_guess_loop_total fuel w :
  (length (Client.stdin w) < fuel)%nat ->
  exists w', Client.guess_loop fuel w = Some w'.
Proof.
  revert w. induction fuel as [|fuel IH]; intros w Hf; [lia|].
  cbn [Client.guess_loop]. cbn [Client.stdin Client.print].
  destruct (fgets 128 (Client.stdin w)) as [[buf rest]|] eqn:F; [|eauto].
  apply fgets_consumes in F; [|lia].
  destruct (_ =? 0); [eauto|].
  destruct (_ || _); [apply IH; cbn; lia|].
  destruct (send_all [1] _) as [r1 c1].
  destruct (r1 <? 0); [eauto|].
  destruct (send_all [_] c1) as [r2 c2].
  destruct (r2 <? 0); [eauto|].
  destruct (read_packets_total (S (length (inp c2)))
              (Client.set_sock (Client.set_stdin
                 (Client.print w (bytes_of ">>>Letter to guess: ")) rest) c2))
    as (r & w2 & R); [cbn; lia|].
  rewrite R. destruct (_ || _); [eauto|].
  apply IH.
  (* reading packets leaves standard input alone *)
  assert (S : forall fuel w r w', Client.read_packets fuel w = Some (r, w') ->
                                  Client.stdin w' = Client.stdin w).
  { clear. induction fuel as [|fuel IH]; intros w r w'; [discriminate|].
    cbn [Client.read_packets]. unfold Client.recv_and_print_one_packet.
    destruct (Client.recv_one_packet _) as [[p|] c].
    - destruct (Client.classify_and_print p) as [r0 text].
      destruct (r0 <? 0); [now intros [= _ <-]|].
      destruct (r0 =? 2); [now intros [= _ <-]|].
      destruct (r0 =? 3); [now intros [= _ <-]|].
      intros H. now rewrite (IH _ _ _ H).
    - now intros [= _ <-]. }
  rewrite (S _ _ _ _ R). cbn. lia.
Qed.

Lemma main_total w : exists status w', Client.main w = Some (status, w').
Proof.
  unfold Client.main.
  destruct (Client.recv_and_print_one_packet w) as [r w1].
  destruct (r <? 0); [eauto|]. destruct (r =? 1); [eauto|].
  destruct (r =? 2); [eauto|].
  destruct (Client.prompt_start w1) as [[status w2]|w2]; [eauto|].
  unfold Client.play.
  destruct (read_packets_total (S (length (inp (Client.sock w2)))) w2)
    as (r' & w3 & R); [lia|].
  rewrite R. destruct (r' <? 0); [eauto|]. destruct (r' =? 2); [eauto|].
  destruct (client_guess_loop_total (S (length (Client.stdin w3))) w3)
    as (w4 & G); [lia|].
  rewrite G. eauto.
Qed.

End Termination.

(** ** The claims about the server's session *)

Section SessionClaims.

Import Server.

Lemma cat_session_starts b guesses rnd :
  start_session [bytes_of "cat"] rnd (mkConn (b :: guesses) [] None)
  = inr (cat_session guesses).
Proof.
  unfold start_session. cbn [length]. rewrite Nat.mod_1_r. reflexivity.
Qed.

Lemma cat_in_session guesses : in_session (cat_session guesses).
Proof.
  exists [bytes_of "cat"], 0%nat, (mkConn (0 :: guesses) [] None), (cat_session guesses).
  split; [apply cat_session_starts | constructor].
Qed.

(** C1. Across any further passes of the guess loop of a running session,
    the masked word keeps its length, every position that shows a letter
    still shows that letter, and the number of placeholders does not grow. *)
Theorem masked_word_only_gains s s' :
  in_session s -> later s s' ->
  length (masked s') = length (masked s) /\
  (forall i c, nth_error (masked s) i = Some c -> c <> placeholder ->
               nth_error (masked s') i = Some c) /\
  (placeholders (masked s') <= placeholders (masked s))%nat.
Proof.
  intros Hs Hl. apply in_session_consistent in Hs.
  destruct (later_effect s s' Hs Hl) as (_ & [L K C] & _). auto.
Qed.

Lemma masked_word_only_gains_witness :
  let s := session_of (loop_iter (cat_session (guess_packets "cxat"))) in
  let s' := session_of (loop_iter (session_of (loop_iter s))) in
  masked s = bytes_of "c__" /\ masked s' = bytes_of "ca_" /\
  length (masked s') = length (masked s) /\
  (forall i c, nth_error (masked s) i = Some c -> c <> placeholder ->
               nth_error (masked s') i = Some c) /\
  (placeholders (masked s') <= placeholders (masked s))%nat.
Proof.
  intros s s'. split; [reflexivity|]. split; [reflexivity|].
  apply (masked_word_only_gains s s').
  - apply (in_session_continues 1 (cat_session (guess_packets "cxat")));
      [apply cat_in_session | reflexivity].
  - apply (later_continue s (session_of (loop_iter s))); [reflexivity|].
    apply (later_continue _ s'); [reflexivity | apply later_refl].
Defined.

(** C2. In a running session, a guess whose lowercased letter is already
    shown in the masked word or already in the incorrect list leaves word,
    masked word and incorrect list as they are; the loop continues, and
    what the server sends is the same board packet that was the last
    thing it sent before. *)
Theorem repeated_guess_is_noop s c rest :
  in_session s ->
  inp (io s) = 1 :: c :: rest ->
  revealed (tolower c) (masked s) \/ In (tolower c) (incorrect s) ->
  writable (length (board_packet (masked s) (incorrect s))) (io s) ->
  (exists pre, out (io s) = pre ++ board_packet (masked s) (incorrect s)) /\
  loop_iter s
  = Continue (mkSession (secret s) (masked s) (incorrect s)
                (sent (board_packet (masked s) (incorrect s))
                      (set_inp (io s) rest))).
Proof.
  intros Hs Hi Hk W. apply in_session_consistent in Hs.
  split; [apply Hs|].
  rewrite (loop_iter_guess _ _ _ Hi).
  rewrite apply_guess_known by (cbn; unfold revealed in Hk; tauto).
  rewrite respond_playing.
  - reflexivity.
  - now apply consistent_set_io.
  - exact W.
Qed.

Lemma repeated_guess_is_noop_witness :
  let s := session_of (loop_iter (cat_session (guess_packets "cC"))) in
  masked s = bytes_of "c__" /\
  (exists pre, out (io s) = pre ++ board_packet (masked s) (incorrect s)) /\
  loop_iter s
  = Continue (mkSession (secret s) (masked s) (incorrect s)
                (sent (board_packet (masked s) (incorrect s))
                      (set_inp (io s) []))).
Proof.
  intros s. split; [reflexivity|].
  apply (repeated_guess_is_noop s 67 []).
  - apply (in_session_continues 1 (cat_session (guess_packets "cC")));
      [apply cat_in_session | reflexivity].
  - reflexivity.
  - left. split; [left; reflexivity | discriminate].
  - exact I.
Defined.

(** C3. In a running session the incorrect list holds fewer than eight
    letters, and after a pass at most eight.  A pass that brings it to
    eight is a guess pass that takes the losing [break]: the loop ends
    there with nothing read beyond that guess, and on a connection that
    takes the bytes the server has sent three message packets: the text
    "The word was" followed by a space and a letter for each letter of the
    word, then "You Lose.", then "Game Over!". *)
Theorem incorrect_cap_then_lost s :
  in_session s ->
  let o := loop_iter s in
  num_incorrect s < MAX_INCORRECT /\
  num_incorrect (session_of o) <= MAX_INCORRECT /\
  (num_incorrect (session_of o) = MAX_INCORRECT ->
   In placeholder (masked (session_of o)) /\
   o = Break Lost (session_of o) /\
   (forall fuel, guess_loop (S fuel) s = Some (Lost, session_of o)) /\
   (exists c, inp (io s) = 1 :: c :: inp (io (session_of o))) /\
   (writable
      (length (message_packet (bytes_of "The word was"
                               ++ flat_map (fun c => [32; c]) (secret s))
               ++ message_packet (bytes_of "You Lose.")
               ++ message_packet (bytes_of "Game Over!")))
      (io s) ->
    out (io (session_of o))
    = out (io s)
      ++ message_packet (bytes_of "The word was"
                         ++ flat_map (fun c => [32; c]) (secret s))
      ++ message_packet (bytes_of "You Lose.")
      ++ message_packet (bytes_of "Game Over!"))).
Proof.
  intros Hs o. apply in_session_consistent in Hs.
  destruct (pass_effect s o Hs eq_refl) as (_ & _ & B).
  split; [apply Hs|]. split; [exact B|]. intros H8.
  assert (Hlt : num_incorrect s < MAX_INCORRECT) by apply Hs.
  subst o.
  input_shape s.
  - rewrite (loop_iter_eof _ E) in H8. cbn in H8. lia.
  - rewrite (loop_iter_malformed _ _ _ E N) in H8. cbn in H8.
    unfold num_incorrect in *. cbn in H8. lia.
  - destruct (loop_iter_truncated _ E) as (c & F & _). rewrite F in H8.
    unfold num_incorrect in *. cbn in H8. lia.
  - assert (G := loop_iter_guess _ _ _ E).
    set (s0 := set_io s (set_inp (io s) rest)) in *.
    assert (C0 : consistent s0) by (now apply consistent_set_io).
    set (s1 := apply_guess s0 (tolower c)) in *.
    assert (M1 : In placeholder (masked s1)).
    { pose proof (apply_guess_mask_step s0 (tolower c) (cons_shape _ C0)
                    (cons_hidden _ C0)) as [L K Cn].
      fold s1 in L, K, Cn. apply all_revealed_false.
      destruct (all_revealed (masked s1)) eqn:A; [|reflexivity].
      apply all_revealed_true in A.
      pose proof (cons_hidden _ C0) as Hh.
      apply (count_occ_In Z.eq_dec) in Hh. unfold placeholders in *.
      assert (S1 : Forall2 (fun x c => x = placeholder \/ x = c)
                           (masked s1) (secret s1))
        by (apply apply_guess_shape, C0).
      (* a guess that reveals the last letter adds no miss *)
      exfalso. destruct (respond_fields s1) as (_ & _ & F3 & _).
      rewrite G in H8. unfold num_incorrect in H8 at 1. rewrite F3 in H8.
      subst s1. unfold apply_guess in *.
      destruct (already_guessed _ _ _); [unfold num_incorrect in *; cbn in *; lia|].
      destruct (found _ _); [unfold num_incorrect in *; cbn in *; lia|].
      destruct (_ <? _); cbn [masked] in A; lia. }
    assert (N1 : num_incorrect s1 = MAX_INCORRECT).
    { destruct (respond_fields s1) as (_ & _ & F3 & _).
      rewrite G in H8. unfold num_incorrect in *. now rewrite F3 in H8. }
    assert (R : respond s1 = Break Lost (send_final "You Lose." s1)).
    { unfold respond. apply all_revealed_false in M1. rewrite M1.
      rewrite N1. reflexivity. }
    rewrite G, R. cbn [session_of].
    destruct (send_final_fields "You Lose." s1) as (F1 & F2 & F3 & F4).
    split; [now rewrite F2|]. split; [reflexivity|].
    split; [intros fuel; apply guess_loop_break; now rewrite G, R|].
    split.
    + exists c. rewrite F4. unfold s1. rewrite apply_guess_io. exact E.
    + intros W. rewrite send_final_ok.
      * unfold s1. rewrite apply_guess_secret, apply_guess_io. reflexivity.
      * unfold s1. rewrite apply_guess_secret, apply_guess_io. exact W.
Qed.

Lemma incorrect_cap_then_lost_witness :
  let s := Nat.iter 7 (fun s => session_of (loop_iter s))
             (cat_session (guess_packets "bdefghij")) in
  let o := loop_iter s in
  incorrect s = bytes_of "bdefghi" /\
  incorrect (session_of o) = bytes_of "bdefghij" /\
  o = Break Lost (session_of o) /\
  out (io (session_of o))
  = out (io s) ++ message_packet (bytes_of "The word was c a t")
    ++ message_packet (bytes_of "You Lose.")
    ++ message_packet (bytes_of "Game Over!").
Proof.
  intros s o.
  assert (Hs : in_session s).
  { apply (in_session_continues 7 (cat_session (guess_packets "bdefghij")));
      [apply cat_in_session | reflexivity]. }
  destruct (incorrect_cap_then_lost s Hs) as (_ & _ & H).
  destruct (H eq_refl) as (_ & Ho & _ & _ & Hout).
  split; [reflexivity|]. split; [reflexivity|]. split; [exact Ho|].
  apply Hout. exact I.
Defined.

(** C4. A guess packet whose length byte [L] is not 1, followed by the
    [L] bytes it declares: the pass consumes the length byte and exactly
    those [L] bytes, sends nothing, leaves word, masked word and incorrect
    list untouched and continues, so the loop goes on with the bytes that
    follow exactly as if the packet had not been sent. *)
Theorem malformed_guess_is_drained s L payload rest :
  0 <= L < 256 -> L <> 1 -> strlen payload = L ->
  inp (io s) = L :: payload ++ rest ->
  loop_iter s
  = Continue (mkSession (secret s) (masked s) (incorrect s)
                (mkConn rest (out (io s)) (quota (io s)))) /\
  forall fuel,
    guess_loop (S fuel) s
    = guess_loop fuel (mkSession (secret s) (masked s) (incorrect s)
                         (mkConn rest (out (io s)) (quota (io s)))).
Proof.
  intros HL N Hp Hi.
  assert (E : loop_iter s
              = Continue (mkSession (secret s) (masked s) (incorrect s)
                            (mkConn rest (out (io s)) (quota (io s))))).
  { rewrite (loop_iter_malformed _ _ _ Hi N).
    rewrite (drain_exact L payload rest); auto. }
  split; [exact E|]. intros fuel. now apply guess_loop_continue.
Qed.

Lemma malformed_guess_is_drained_witness :
  let s := cat_session ([3; 99; 0; 0] ++ guess_packets "c") in
  loop_iter s = Continue (cat_session (guess_packets "c")) /\
  guess_loop 3 s = guess_loop 2 (cat_session (guess_packets "c")) /\
  masked (session_of (loop_iter (cat_session (guess_packets "c"))))
  = bytes_of "c__".
Proof.
  intros s.
  destruct (malformed_guess_is_drained s 3 [99; 0; 0] (guess_packets "c"))
    as [H1 H2]; [lia | discriminate | reflexivity | reflexivity |].
  split; [exact H1|]. split; [exact (H2 2%nat) | reflexivity].
Defined.

(** C10. In a running session whose masked word has a placeholder, the
    byte ['_'] counts as already guessed because it equals a placeholder
    entry of the masked word: a guess of it changes nothing, the incorrect
    list neither holds it nor gains it, and the server sends again the
    board packet it sent last. *)
Theorem underscore_guess_is_noop s rest :
  in_session s ->
  In placeholder (masked s) ->
  inp (io s) = 1 :: placeholder :: rest ->
  writable (length (board_packet (masked s) (incorrect s))) (io s) ->
  already_guessed (masked s) (incorrect s) (tolower placeholder) = true /\
  existsb (fun m => m =? tolower placeholder) (masked s) = true /\
  ~ In placeholder (incorrect s) /\
  (exists pre, out (io s) = pre ++ board_packet (masked s) (incorrect s)) /\
  loop_iter s
  = Continue (mkSession (secret s) (masked s) (incorrect s)
                (sent (board_packet (masked s) (incorrect s))
                      (set_inp (io s) rest))).
Proof.
  intros Hs Hp Hi W. apply in_session_consistent in Hs.
  split; [apply already_guessed_spec; now left|].
  split; [now apply existsb_eqb_In|].
  split; [apply Hs|]. split; [apply Hs|].
  rewrite (loop_iter_guess _ _ _ Hi).
  rewrite apply_guess_known by (left; exact Hp).
  rewrite respond_playing.
  - reflexivity.
  - now apply consistent_set_io.
  - exact W.
Qed.

Lemma underscore_guess_is_noop_witness :
  let s := session_of (loop_iter (cat_session (guess_packets "x_"))) in
  masked s = bytes_of "___" /\ incorrect s = bytes_of "x" /\
  loop_iter s
  = Continue (mkSession (secret s) (masked s) (incorrect s)
                (sent (board_packet (masked s) (incorrect s))
                      (set_inp (io s) []))).
Proof.
  intros s. split; [reflexivity|]. split; [reflexivity|].
  apply (underscore_guess_is_noop s []).
  - apply (in_session_continues 1 (cat_session (guess_packets "x_")));
      [apply cat_in_session | reflexivity].
  - left. reflexivity.
  - reflexivity.
  - exact I.
Defined.

(** C7. The word "cat" with the guesses c, a, t, whatever the start
    byte: after c the masked word is [c__] (shown as [c _ _]) with no
    incorrect letter and the loop continues; after a it is [ca_]; after t
    it is [cat], the loop ends by the winning [break], and the server has
    sent, in this order, "The word was c a t", "You Win!", "Game Over!". *)
Theorem cat_scenario b rnd :
  let cat := bytes_of "cat" in
  let b0 := board_packet (bytes_of "___") [] in
  let b1 := board_packet (bytes_of "c__") [] in
  let b2 := board_packet (bytes_of "ca_") [] in
  let s0 := mkSession cat (bytes_of "___") []
              (mkConn (guess_packets "cat") (welcome ++ b0) None) in
  let s1 := mkSession cat (bytes_of "c__") []
              (mkConn (guess_packets "at") (welcome ++ b0 ++ b1) None) in
  let s2 := mkSession cat (bytes_of "ca_") []
              (mkConn (guess_packets "t") (welcome ++ b0 ++ b1 ++ b2) None) in
  let s3 := mkSession cat (bytes_of "cat") []
              (mkConn [] (welcome ++ b0 ++ b1 ++ b2
                          ++ message_packet (bytes_of "The word was c a t")
                          ++ message_packet (bytes_of "You Win!")
                          ++ message_packet (bytes_of "Game Over!")) None) in
  start_session [cat] rnd (mkConn (b :: guess_packets "cat") [] None) = inr s0 /\
  loop_iter s0 = Continue s1 /\
  loop_iter s1 = Continue s2 /\
  loop_iter s2 = Break Won s3 /\
  handle_client [cat] rnd (mkConn (b :: guess_packets "cat") [] None) = io s3 /\
  Client.spaced (masked s1) = bytes_of "c _ _" /\
  Client.spaced (masked s2) = bytes_of "c a _" /\
  Client.spaced (masked s3) = bytes_of "c a t".
Proof.
  intros cat b0 b1 b2 s0 s1 s2 s3.
  assert (St : start_session [cat] rnd (mkConn (b :: guess_packets "cat") [] None)
               = inr s0) by apply cat_session_starts.
  split; [exact St|].
  split; [reflexivity|]. split; [reflexivity|]. split; [reflexivity|].
  split; [|repeat split].
  unfold handle_client. rewrite St. reflexivity.
Qed.

End SessionClaims.

(** ** Starting a session *)

Section Starting.

Import Server.

Lemma send_all_set_inp buf c i :
  send_all buf (set_inp c i)
  = (fst (send_all buf c), set_inp (snd (send_all buf c)) i).
Proof.
  unfold send_all, set_inp; cbn.
  destruct (quota c); [destruct (_ <=? _)%nat|]; reflexivity.
Qed.

Lemma sent_set_inp buf c i : sent buf (set_inp c i) = set_inp (sent buf c) i.
Proof. reflexivity. Qed.

Lemma start_session_ok words rnd c b rest w :
  inp c = b :: rest ->
  nth (rnd mod length words) words [] = w ->
  1 <= strlen w <= MAX_WORD_LEN ->
  writable (length (welcome ++ board_packet (repeat placeholder (length w)) [])) c ->
  start_session words rnd c
  = inr (mkSession w (repeat placeholder (length w)) []
           (sent (welcome ++ board_packet (repeat placeholder (length w)) [])
                 (set_inp c rest))).
Proof.
  intros Hi Hw Hl W. unfold start_session. rewrite length_app in W.
  rewrite send_message_packet_ok by (eapply writable_le; [|exact W]; unfold welcome; lia).
  cbn [Z.ltb Z.compare]. unfold recv1. cbn [inp sent]. rewrite Hi, Hw.
  assert (L : strlen (repeat placeholder (length w)) = strlen w)
    by (unfold strlen; now rewrite repeat_length).
  replace (Z.to_nat (strlen w)) with (length w)
    by (unfold strlen; now rewrite Nat2Z.id).
  rewrite (send_game_state_eq (repeat placeholder (length w)) [] (strlen w) 0).
  - cbn [Z.ltb Z.compare]. do 2 f_equal.
    fold welcome. rewrite <- sent_app. reflexivity.
  - now rewrite L.
  - reflexivity.
  - now rewrite L.
  - cbn. unfold MAX_WORD_LEN. lia.
  - unfold set_inp. cbn [out quota sent]. fold welcome.
    apply (writable_sent welcome _ (mkConn rest (out c) (quota c))). exact W.
Qed.

(** C9. Once the welcome message is out, the byte the server reads next
    is not inspected: with any first byte the start of the session is the
    one a zero start signal gives.  With a word of the table chosen and a
    connection that takes the bytes, that start leaves the all-placeholder
    masked word, the empty incorrect list and the first board packet sent
    after the welcome. *)
Theorem any_first_byte_starts_game words rnd c b rest :
  inp c = b :: rest ->
  writable (length welcome) c ->
  start_session words rnd c = start_session words rnd (set_inp c (0 :: rest)) /\
  forall w,
    nth (rnd mod length words) words [] = w ->
    1 <= strlen w <= MAX_WORD_LEN ->
    writable (length (welcome ++ board_packet (repeat placeholder (length w)) [])) c ->
    start_session words rnd c
    = inr (mkSession w (repeat placeholder (length w)) []
             (mkConn rest
                (out c ++ welcome ++ board_packet (repeat placeholder (length w)) [])
                (option_map
                   (fun q => (q - length (welcome
                       ++ board_packet (repeat placeholder (length w)) []))%nat)
                   (quota c)))).
Proof.
  intros Hi W. split.
  - unfold start_session.
    rewrite !send_message_packet_ok by (try apply W).
    cbn [Z.ltb Z.compare]. unfold recv1. cbn [inp sent set_inp]. rewrite Hi.
    reflexivity.
  - intros w Hw Hl W'. rewrite (start_session_ok words rnd c b rest w); auto.
Qed.

Lemma any_first_byte_starts_game_witness :
  start_session [bytes_of "cat"] 5 (mkConn (guess_packets "c") [] None)
  = start_session [bytes_of "cat"] 5 (mkConn (0 :: [99]) [] None) /\
  start_session [bytes_of "cat"] 5 (mkConn (guess_packets "c") [] None)
  = inr (mkSession (bytes_of "cat") (bytes_of "___") []
           (mkConn [99] (welcome ++ board_packet (bytes_of "___") []) None)).
Proof.
  destruct (any_first_byte_starts_game [bytes_of "cat"] 5
              (mkConn (guess_packets "c") [] None) 1 [99] eq_refl I) as [H1 H2].
  split; [exact H1|].
  apply (H2 (bytes_of "cat")); [reflexivity | vm_compute; split; discriminate | exact I].
Defined.

End Starting.

(** ** The client's decoder against the server's encoder *)

Section Codec.

Import Server Client.

Lemma recv_game_control (k : conn) wl ni (m i rest : list Z) :
  inp k = [0; wl; ni] ++ (m ++ i) ++ rest ->
  0 <= wl <= 8 -> 0 <= ni -> wl + ni <= 16 ->
  strlen m = wl -> strlen i = ni ->
  recv_one_packet k = (Some (GameControl wl ni m i), set_inp k rest).
Proof.
  intros Hi Hwl Hni Hsum Hm Hinc. unfold recv_one_packet.
  rewrite (recv_all_app 1 [0] ([wl; ni] ++ (m ++ i) ++ rest) k Hi eq_refl).
  cbn [Z.ltb Z.compare].
  rewrite (recv_all_app 2 [wl; ni] ((m ++ i) ++ rest) (set_inp k _) eq_refl eq_refl).
  replace (8 <? wl) with false by (symmetry; apply Z.ltb_ge; lia).
  replace (16 <? wl + ni) with false by (symmetry; apply Z.ltb_ge; lia).
  rewrite (recv_all_app (wl + ni) (m ++ i) rest (set_inp (set_inp k _) _) eq_refl)
    by (rewrite length_app; unfold strlen in *; lia).
  assert (Z.to_nat wl = length m) as -> by (unfold strlen in Hm; lia).
  rewrite firstn_app, Nat.sub_diag, firstn_all, firstn_O, app_nil_r.
  rewrite skipn_app, Nat.sub_diag, skipn_all. reflexivity.
Qed.

(** C6. A board with a masked word of 1 to 8 bytes and 0 to 8 incorrect
    letters, written by [send_game_state] on a connection that takes the
    bytes and read by the client from those bytes: the client holds the
    same masked-word bytes and the same incorrect-letter bytes, returns
    the board code and prints that board. *)
Theorem board_round_trip masked incorrect wl ni c :
  1 <= wl <= 8 -> 0 <= ni <= 8 ->
  strlen masked = wl -> strlen incorrect = ni ->
  writable (length (board_packet masked incorrect)) c ->
  exists wire,
    send_game_state masked incorrect wl ni c = (0, sent wire c) /\
    forall (w : client) rest,
      inp (sock w) = wire ++ rest ->
      recv_one_packet (sock w)
      = (Some (GameControl wl ni masked incorrect), set_inp (sock w) rest) /\
      recv_and_print_one_packet w
      = (3, mkClient (set_inp (sock w) rest) (stdin w)
              (stdout w ++ board_text masked incorrect)).
Proof.
  intros Hwl Hni Hm Hi W. exists (board_packet masked incorrect). split.
  - apply send_game_state_eq; auto; unfold MAX_WORD_LEN; lia.
  - intros w rest Hw.
    assert (R : recv_one_packet (sock w)
                = (Some (GameControl wl ni masked incorrect),
                   set_inp (sock w) rest)).
    { apply recv_game_control; try lia.
      rewrite Hw. unfold board_packet. now rewrite Hm, Hi, <- !app_assoc. }
    split; [exact R|].
    unfold recv_and_print_one_packet. rewrite R. reflexivity.
Qed.

Lemma board_round_trip_witness :
  exists wire,
    send_game_state (bytes_of "h_ngm_n") (bytes_of "xyz") 7 3 (mkConn [] [] (Some 13%nat))
    = (0, sent wire (mkConn [] [] (Some 13%nat))) /\
    recv_one_packet (mkConn (wire ++ [7]) [] None)
    = (Some (GameControl 7 3 (bytes_of "h_ngm_n") (bytes_of "xyz")),
       mkConn [7] [] None).
Proof.
  destruct (board_round_trip (bytes_of "h_ngm_n") (bytes_of "xyz") 7 3
              (mkConn [] [] (Some 13%nat)))
    as (wire & Hs & Hr); [lia | lia | reflexivity | reflexivity | cbn; lia |].
  exists wire. split; [exact Hs|].
  exact (proj1 (Hr (mkClient (mkConn (wire ++ [7]) [] None) [] []) [7] eq_refl)).
Defined.

End Codec.

(** ** Word lengths: the server's table against the client's check *)

Section WordLength.

Import Server Client.

Lemma isalpha_printable c :
  isalpha c = true -> c <> 0 /\ c <> 10 /\ c <> 13.
Proof. unfold isalpha. lia. Qed.

Lemma fgets_aux_line n (w rest : list Z) :
  forallb isalpha w = true -> (length w < n)%nat ->
  fgets_aux n (w ++ 10 :: rest) = (w ++ [10], rest).
Proof.
  revert n. induction w as [|c w IH]; intros n Ha Hn.
  - destruct n; [lia|]. reflexivity.
  - cbn in Ha, Hn. apply andb_true_iff in Ha as [Hc Ha].
    destruct n; [lia|]. cbn.
    replace (c =? 10) with false
      by (symmetry; apply Z.eqb_neq; now apply isalpha_printable).
    rewrite IH by (auto; lia). reflexivity.
Qed.

Lemma strip_newline_line (w rest : list Z) :
  forallb isalpha w = true -> strip_newline (w ++ 10 :: rest) = w.
Proof.
  induction w as [|c w IH]; intros Ha; [reflexivity|].
  cbn in Ha. apply andb_true_iff in Ha as [Hc Ha]. cbn.
  destruct (isalpha_printable c Hc) as (A & B & C).
  apply Z.eqb_neq in A, B, C. rewrite A, B, C. cbn. now rewrite IH.
Qed.

Lemma load_line_word (w : list Z) :
  forallb isalpha w = true -> 1 <= strlen w <= MAX_WORD_LEN ->
  load_line (w ++ [10]) = Some (map tolower w).
Proof.
  intros Ha Hl. unfold load_line. rewrite strip_newline_line by assumption.
  replace (strlen w =? 0) with false by (symmetry; apply Z.eqb_neq; lia).
  replace (MAX_WORD_LEN <? strlen w) with false by (symmetry; apply Z.ltb_ge; lia).
  now rewrite Ha.
Qed.

Lemma load_words_single (w : list Z) :
  forallb isalpha w = true -> 1 <= strlen w <= MAX_WORD_LEN ->
  load_words (w ++ [10]) = Some [map tolower w].
Proof.
  intros Ha Hl. unfold load_words.
  assert (E : load_loop (length (w ++ [10])) (w ++ [10]) [] = [map tolower w]).
  { rewrite length_app, Nat.add_comm. cbn [length Nat.add load_loop].
    change (negb (Z.of_nat 0 <? MAX_WORDS)) with false. cbn match.
    assert (F : fgets 256 (w ++ [10]) = Some (w ++ [10], [])).
    { unfold fgets. destruct (w ++ [10]) eqn:E; [now destruct w|].
      rewrite <- E. f_equal. apply fgets_aux_line; [assumption|].
      unfold strlen, MAX_WORD_LEN in Hl. cbn. lia. }
    rewrite F, load_line_word by assumption.
    destruct (length w); reflexivity. }
  now rewrite E.
Qed.

Lemma recv_message (k : conn) flag (data rest : list Z) :
  inp k = flag :: data ++ rest -> 0 < flag -> Z.to_nat flag = length data ->
  recv_one_packet k = (Some (Message flag data), set_inp k rest).
Proof.
  intros Hi Hf Hl. unfold recv_one_packet.
  rewrite (recv_all_app 1 [flag] (data ++ rest) k Hi eq_refl).
  apply Z.ltb_lt in Hf. rewrite Hf.
  rewrite (recv_all_app flag data rest (set_inp k _) eq_refl Hl). reflexivity.
Qed.

Lemma recv_oversized (k : conn) wl ni rest :
  inp k = 0 :: wl :: ni :: rest -> 8 < wl ->
  recv_one_packet k = (None, set_inp k rest).
Proof.
  intros Hi Hwl. unfold recv_one_packet.
  rewrite (recv_all_app 1 [0] (wl :: ni :: rest) k Hi eq_refl).
  cbn [Z.ltb Z.compare].
  rewrite (recv_all_app 2 [wl; ni] rest (set_inp k (wl :: ni :: rest))
             eq_refl eq_refl).
  apply Z.ltb_lt in Hwl. now rewrite Hwl.
Qed.

End WordLength.

Section Disagreement.

Import Server Client.

Lemma recv_and_print_oversized cl wl ni rest :
  inp (sock cl) = 0 :: wl :: ni :: rest -> 8 < wl ->
  recv_and_print_one_packet cl = (-1, set_sock cl (set_inp (sock cl) rest)).
Proof.
  intros Hi Hwl. unfold recv_and_print_one_packet.
  now rewrite (recv_oversized _ _ _ _ Hi Hwl).
Qed.

Lemma play_oversized cl wl ni rest :
  inp (sock cl) = 0 :: wl :: ni :: rest -> 8 < wl ->
  play cl = Some (1, set_sock cl (set_inp (sock cl) rest)).
Proof.
  intros Hi Hwl. unfold play. cbn [read_packets].
  now rewrite (recv_and_print_oversized _ _ _ _ Hi Hwl).
Qed.

Lemma main_rejects_long_word wl ni rest more :
  8 < wl ->
  exists cl',
    main (eager_client (welcome ++ 0 :: wl :: ni :: rest) more) = Some (1, cl') /\
    out (sock cl') = [0] /\ inp (sock cl') = rest.
Proof.
  intros Hwl. unfold main, eager_client.
  assert (R : recv_and_print_one_packet
                (mkClient (mkConn (welcome ++ 0 :: wl :: ni :: rest) [] None)
                          (bytes_of "y" ++ 10 :: more) [])
              = (4, mkClient (mkConn (0 :: wl :: ni :: rest) [] None)
                      (bytes_of "y" ++ 10 :: more)
                      (message_text 18 (bytes_of "Welcome to Hangman")))).
  { unfold recv_and_print_one_packet. cbn [sock].
    rewrite (recv_message _ 18 (bytes_of "Welcome to Hangman")
               (0 :: wl :: ni :: rest)); reflexivity. }
  rewrite R. cbn [Z.ltb Z.eqb Z.compare Pos.compare Pos.compare_cont Pos.eqb].
  set (w1 := mkClient _ _ _).
  assert (P : prompt_start w1
              = inr (mkClient (mkConn (0 :: wl :: ni :: rest) [0] None) more
                       (stdout w1 ++ bytes_of ">>> Ready to start game? (y/n): "))).
  { reflexivity. }
  rewrite P. erewrite play_oversized; [|reflexivity|exact Hwl].
  eexists. split; [reflexivity|]. split; reflexivity.
Qed.

(** C5. A line of 1 to 16 letters is loaded into the word table, in
    lowercase, and a session can be started on it; the client returns its
    error code on every game-control packet that declares a word length
    above 8 and ends with exit status 1; so a client that answers "y" to a
    server playing any word of 9 to 16 letters ends there, after the start
    signal, at the first board. *)
Theorem word_length_ceilings_disagree (w : list Z) :
  forallb isalpha w = true ->
  (1 <= strlen w <= 16 ->
   load_words (w ++ [10]) = Some [map tolower w] /\
   forall rnd b rest,
     start_session [map tolower w] rnd (mkConn (b :: rest) [] None)
     = inr (mkSession (map tolower w) (repeat placeholder (length w)) []
              (mkConn rest
                 (welcome ++ 0 :: strlen w :: 0 :: repeat placeholder (length w))
                 None))) /\
  (forall cl wl ni rest,
     inp (sock cl) = 0 :: wl :: ni :: rest -> 8 < wl ->
     recv_and_print_one_packet cl = (-1, set_sock cl (set_inp (sock cl) rest)) /\
     play cl = Some (1, set_sock cl (set_inp (sock cl) rest))) /\
  (9 <= strlen w <= 16 ->
   forall more, exists cl',
     main (eager_client
             (welcome ++ 0 :: strlen w :: 0 :: repeat placeholder (length w)) more)
     = Some (1, cl') /\
     out (sock cl') = [0]).
Proof.
  intros Ha. split; [|split].
  - intros Hl. split; [apply load_words_single; unfold MAX_WORD_LEN; auto|].
    intros rnd b rest.
    rewrite (start_session_ok _ rnd _ b rest (map tolower w)).
    + rewrite length_map. unfold sent, board_packet, strlen.
      cbn [inp out quota set_inp option_map app]. rewrite repeat_length, app_nil_r.
      reflexivity.
    + reflexivity.
    + cbn [length]. now rewrite Nat.mod_1_r.
    + unfold strlen, MAX_WORD_LEN in *. rewrite length_map. lia.
    + exact I.
  - intros cl wl ni rest Hi Hwl. split.
    + now apply (recv_and_print_oversized cl wl ni).
    + now apply (play_oversized cl wl ni).
  - intros Hl more.
    destruct (main_rejects_long_word (strlen w) 0
                (repeat placeholder (length w)) more) as (cl' & M & O & _); [lia|].
    now exists cl'.
Qed.

Lemma word_length_ceilings_disagree_witness :
  load_words (bytes_of "Crocodile" ++ [10]) = Some [bytes_of "crocodile"] /\
  exists cl',
    main (eager_client (welcome ++ 0 :: 3 :: 0 :: bytes_of "___") [])
    <> Some (1, cl') /\
    main (eager_client
            (welcome ++ 0 :: 9 :: 0 :: bytes_of "_________") [])
    = Some (1, cl').
Proof.
  destruct (word_length_ceilings_disagree (bytes_of "Crocodile") eq_refl)
    as (H1 & _ & H3).
  destruct H1 as [L _]; [cbn; lia|].
  destruct (H3 ltac:(cbn; lia) []) as (cl' & M & _).
  split; [exact L|]. exists cl'. split; [discriminate | exact M].
Defined.

End Disagreement.

(** ** The client's start prompt *)

Section StartPrompt.

Import Client.

(** C8, as stated, fails: the answer "yellow" is not the letter y, yet
    the client sends the start signal. *)
Lemma start_prompt_yellow : ~ start_prompt_as_specified yellow_client.
Proof.
  intros H. specialize (H (bytes_of "yellow" ++ [10]) [] eq_refl).
  cbn in H. destruct H as (w' & E & _). discriminate.
Qed.

(** C8, amended. On an input line, with a connection that takes a byte,
    the client sends the one-byte start signal and goes on to wait for the
    board exactly when the first character of the line is y or Y; on any
    other first character it returns with status 0 and has sent
    nothing. *)
Theorem start_prompt_first_char w line rest :
  fgets 128 (stdin w) = Some (line, rest) ->
  writable 1 (sock w) ->
  let asked := mkClient (sock w) rest
                 (stdout w ++ bytes_of ">>> Ready to start game? (y/n): ") in
  let started := mkClient (sent [0] (sock w)) rest (stdout asked) in
  (if (hd 0 line =? 121) || (hd 0 line =? 89)
   then prompt_start w = inr started
   else prompt_start w = inl (0, asked)) /\
  forall w0 r,
    recv_and_print_one_packet w0 = (r, w) -> r = 3 \/ r = 4 ->
    main w0 = if (hd 0 line =? 121) || (hd 0 line =? 89)
              then play started else Some (0, asked).
Proof.
  intros Hf W asked started.
  assert (P : prompt_start w
              = if (hd 0 line =? 121) || (hd 0 line =? 89)
                then inr started else inl (0, asked)).
  { unfold prompt_start. cbn [stdin print]. rewrite Hf.
    destruct (hd 0 line =? 121), (hd 0 line =? 89); cbn [negb andb orb];
      try reflexivity;
      cbn [sock set_stdin]; rewrite (send_all_ok [0]) by exact W; reflexivity. }
  split.
  - rewrite P. destruct (_ || _); reflexivity.
  - intros w0 r R Hr. unfold main. rewrite R, P.
    destruct Hr as [-> | ->]; cbn [Z.ltb Z.eqb Z.compare Pos.compare
                                    Pos.compare_cont Pos.eqb];
      destruct (_ || _); reflexivity.
Qed.

Lemma start_prompt_first_char_witness :
  prompt_start yellow_client
  = inr (mkClient (mkConn [] [0] None) []
           (bytes_of ">>> Ready to start game? (y/n): ")).
Proof.
  exact (proj1 (start_prompt_first_char yellow_client
                  (bytes_of "yellow" ++ [10]) [] eq_refl I)).
Defined.

End StartPrompt.

(** ** More on the guess update: what the lists say about the word *)

Section GameFacts.

Import Server.

Lemma tolower_idempotent c : tolower (tolower c) = tolower c.
Proof.
  unfold tolower.
  destruct ((65 <=? c) && (c <=? 90)) eqn:E; [|now rewrite E].
  replace ((65 <=? c + 32) && (c + 32 <=? 90)) with false; [reflexivity|].
  symmetry. apply andb_false_iff. right. apply Z.leb_gt.
  apply andb_true_iff in E as [E _]. apply Z.leb_le in E. lia.
Qed.

Lemma reveal_In sec m l y :
  In y (reveal sec m l) -> In y m \/ y = l.
Proof.
  revert m. induction sec as [|c sec IH]; intros [|x m]; cbn; auto.
  intros [H|H].
  - destruct (c =? l); auto.
  - destruct (IH m H); auto.
Qed.

Lemma reveal_nth_hit sec m l i :
  length m = length sec -> nth_error sec i = Some l ->
  nth_error (reveal sec m l) i = Some l.
Proof.
  revert m i. induction sec as [|c sec IH]; intros [|x m] [|i]; cbn;
    try discriminate.
  - intros _ [= ->]. now rewrite Z.eqb_refl.
  - intros [= L] H. now apply IH.
Qed.

Lemma reveal_nth_miss sec m l i c :
  nth_error sec i = Some c -> c <> l ->
  nth_error (reveal sec m l) i = nth_error m i.
Proof.
  revert m i. induction sec as [|c0 sec IH]; intros [|x m] [|i]; cbn;
    try discriminate; try reflexivity.
  - intros [= ->] N. apply Z.eqb_neq in N. now rewrite N.
  - intros H N. now apply IH.
Qed.

Lemma reveal_strict sec m l :
  Forall2 (fun x c => x = placeholder \/ x = c) m sec ->
  ~ In l m -> l <> placeholder -> In l sec ->
  (placeholders (reveal sec m l) < placeholders m)%nat.
Proof.
  intros Hs. induction Hs as [|x c m sec Hx Hrest IH]; intros Hn Hl Hin.
  - contradiction.
  - assert (Hn' : ~ In l m) by (intros H; apply Hn; now right).
    pose proof (step_count _ _ (reveal_mask_step sec m l Hrest Hn' Hl)) as Le.
    unfold placeholders in *. cbn [reveal count_occ].
    destruct (c =? l) eqn:E.
    + apply Z.eqb_eq in E. subst c.
      destruct Hx as [-> | ->]; [|exfalso; apply Hn; now left].
      destruct (Z.eq_dec l placeholder); [contradiction|].
      destruct (Z.eq_dec placeholder placeholder); [lia|contradiction].
    + apply Z.eqb_neq in E. destruct Hin as [->|Hin]; [contradiction|].
      specialize (IH Hn' Hl Hin).
      destruct (Z.eq_dec x placeholder); lia.
Qed.

Lemma found_spec sec l : found sec l = true <-> In l sec.
Proof. apply existsb_eqb_In. Qed.

(** The guess update, case by case. *)
Lemma apply_guess_hit s l :
  ~ In l (masked s) -> ~ In l (incorrect s) -> In l (secret s) ->
  apply_guess s l
  = mkSession (secret s) (reveal (secret s) (masked s) l) (incorrect s) (io s).
Proof.
  intros H1 H2 H3. unfold apply_guess.
  destruct (already_guessed _ _ _) eqn:A.
  - apply already_guessed_spec in A. tauto.
  - apply found_spec in H3. now rewrite H3.
Qed.

Lemma apply_guess_miss s l :
  ~ In l (masked s) -> ~ In l (incorrect s) -> ~ In l (secret s) ->
  num_incorrect s < MAX_INCORRECT ->
  apply_guess s l
  = mkSession (secret s) (masked s) (incorrect s ++ [l]) (io s).
Proof.
  intros H1 H2 H3 H4. unfold apply_guess.
  destruct (already_guessed _ _ _) eqn:A.
  - apply already_guessed_spec in A. tauto.
  - destruct (found _ _) eqn:F; [apply found_spec in F; contradiction|].
    apply Z.ltb_lt in H4. now rewrite H4.
Qed.

Lemma apply_guess_cases s l :
  apply_guess s l = s \/
  (~ In l (masked s) /\ ~ In l (incorrect s) /\ In l (secret s) /\
   apply_guess s l
   = mkSession (secret s) (reveal (secret s) (masked s) l) (incorrect s) (io s)) \/
  (~ In l (masked s) /\ ~ In l (incorrect s) /\ ~ In l (secret s) /\
   apply_guess s l
   = mkSession (secret s) (masked s) (incorrect s ++ [l]) (io s)).
Proof.
  unfold apply_guess.
  destruct (already_guessed _ _ _) eqn:A; [now left|].
  assert (N : ~ (In l (masked s) \/ In l (incorrect s))).
  { intros H. apply already_guessed_spec in H. congruence. }
  destruct (found _ _) eqn:F.
  - right; left. apply found_spec in F. tauto.
  - destruct (_ <? _); [|now left].
    right; right. repeat split; try tauto.
    intros H. apply found_spec in H. congruence.
Qed.

Lemma sound_game a b : game a = game b -> sound a -> sound b.
Proof.
  unfold game. intros [= E1 E2 E3] [A B C].
  split; rewrite <- ?E1, <- ?E2, <- ?E3; assumption.
Qed.

Lemma apply_guess_sound s l :
  consistent s -> sound s -> sound (apply_guess s l).
Proof.
  intros Cs [A B C].
  destruct (apply_guess_cases s l) as [->|[(N1 & N2 & I & ->)|(N1 & N2 & N3 & ->)]].
  - now split.
  - assert (Len : length (masked s) = length (secret s)).
    { pose proof (shape_length _ _ (cons_shape _ Cs)) as L.
      unfold strlen in L. lia. }
    split; cbn [secret masked incorrect]; auto.
    + intros x Hx. destruct (B x Hx) as [B1 B2]. split; [assumption|].
      intros H. apply reveal_In in H as [H | ->]; contradiction.
    + intros i c Hc Hp Hi.
      destruct (Z.eq_dec c l) as [->|Ne].
      * now apply reveal_nth_hit.
      * rewrite (reveal_nth_miss _ _ _ _ _ Hi Ne). apply C; auto.
        apply reveal_In in Hc as [Hc|Hc]; [assumption|contradiction].
  - split; cbn [secret masked incorrect]; auto.
    + apply NoDup_app; [assumption | repeat constructor; intros [] | ].
      intros x Hx [<- | []]. contradiction.
    + intros x Hx. apply in_app_iff in Hx as [Hx|[<- | []]]; auto.
Qed.

Lemma pass_game s :
  game (session_of (loop_iter s)) = game s \/
  exists c rest,
    inp (io s) = 1 :: c :: rest /\
    game (session_of (loop_iter s))
    = game (apply_guess (set_io s (set_inp (io s) rest)) (tolower c)).
Proof.
  input_shape s.
  - left. now rewrite (loop_iter_eof _ E).
  - left. now rewrite (loop_iter_malformed _ _ _ E N).
  - left. destruct (loop_iter_truncated _ E) as (c & -> & _). reflexivity.
  - right. exists c, rest. split; [assumption|].
    rewrite (loop_iter_guess _ _ _ E).
    destruct (respond_fields (apply_guess (set_io s (set_inp (io s) rest)) (tolower c)))
      as (F1 & F2 & F3 & _).
    unfold game. now rewrite F1, F2, F3.
Qed.

Lemma pass_sound s :
  consistent s -> sound s -> sound (session_of (loop_iter s)).
Proof.
  intros Cs Ss. destruct (pass_game s) as [G|(c & rest & _ & G)].
  - eapply sound_game; [symmetry; exact G | assumption].
  - eapply sound_game; [symmetry; exact G|].
    apply apply_guess_sound; [now apply consistent_set_io|].
    eapply sound_game; [|exact Ss]. reflexivity.
Qed.

Lemma start_fields words rnd c s0 :
  start_session words rnd c = inr s0 ->
  masked s0 = repeat placeholder (length (secret s0)) /\ incorrect s0 = [].
Proof.
  unfold start_session.
  destruct (send_message_packet _ c) as [r0 c0].
  destruct (r0 <? 0); [discriminate|].
  destruct (recv1 c0) as [[msg_len|] c1]; [|discriminate].
  destruct (send_game_state _ _ _ _ c1) as [r c2].
  destruct (r <? 0); [discriminate|]. intros [= <-]. cbn.
  unfold strlen. now rewrite Nat2Z.id.
Qed.

Lemma in_session_sound s : in_session s -> sound s.
Proof.
  intros (words & rnd & c & s0 & St & P).
  assert (C0 : consistent s0) by (eapply start_consistent, St).
  induction P as [|s s' P IH H].
  - destruct (start_fields _ _ _ _ St) as [M I]. split.
    + rewrite I. constructor.
    + rewrite I. contradiction.
    + intros i x Hx Hp. rewrite M in Hx. apply repeat_spec in Hx. contradiction.
  - pose proof (pass_sound s (playing_consistent _ _ C0 P) IH) as S'.
    now rewrite H in S'.
Qed.

Lemma later_sound s s' :
  consistent s -> sound s -> later s s' -> sound s'.
Proof.
  intros C S H. induction H as [s|s s1 s2 H1 H2 IH|s e s1 H1].
  - assumption.
  - apply IH; [now apply (pass_consistent s)|].
    pose proof (pass_sound s C S) as S'. now rewrite H1 in S'.
  - pose proof (pass_sound s C S) as S'. now rewrite H1 in S'.
Qed.

Lemma later_shape s s' :
  consistent s -> later s s' ->
  Forall2 (fun m c => m = placeholder \/ m = c) (masked s') (secret s').
Proof.
  assert (P : forall s, consistent s ->
            Forall2 (fun m c => m = placeholder \/ m = c)
                    (masked (session_of (loop_iter s)))
                    (secret (session_of (loop_iter s)))).
  { clear. intros s C. destruct (pass_game s) as [G|(c & rest & _ & G)];
      unfold game in G; injection G as -> -> _.
    - apply C.
    - apply apply_guess_shape. apply C. }
  intros C H. induction H as [s|s s1 s2 H1 H2 IH|s e s1 H1].
  - apply C.
  - apply IH. now apply (pass_consistent s).
  - specialize (P s C). now rewrite H1 in P.
Qed.

End GameFacts.

(** ** Further properties of the server's session *)

Section SessionFacts.

Import Server.

Lemma shape_nth (m sec : list Z) i c :
  Forall2 (fun x d => x = placeholder \/ x = d) m sec ->
  nth_error m i = Some c -> c <> placeholder -> nth_error sec i = Some c.
Proof.
  intros H. revert i. induction H as [|x d m sec Hx _ IH]; intros [|i]; cbn;
    try discriminate.
  - intros [= ->] Hc. destruct Hx; [contradiction | congruence].
  - apply IH.
Qed.

Lemma shape_full (m sec : list Z) :
  Forall2 (fun x d => x = placeholder \/ x = d) m sec ->
  placeholders m = 0%nat -> m = sec.
Proof.
  unfold placeholders. induction 1 as [|x d m sec Hx _ IH]; [reflexivity|].
  cbn. destruct (Z.eq_dec x placeholder); [discriminate|].
  intros H0. destruct Hx; [contradiction|]. f_equal; auto.
Qed.

Lemma later_continues n s s' : continues n s = Some s' -> later s s'.
Proof.
  revert s. induction n as [|n IH]; intros s; cbn.
  - intros [= <-]. apply later_refl.
  - destruct (loop_iter s) as [s1|] eqn:E; [|discriminate].
    intros H. apply (later_continue s s1); auto.
Qed.

(** X1. In a session, at the top of the loop and after any further
    passes, the incorrect list has no letter twice, and none of its
    letters occurs in the word or in the masked word. *)
Theorem misses_are_distinct_and_absent s s' :
  in_session s -> later s s' ->
  NoDup (incorrect s') /\
  forall x, In x (incorrect s') ->
            ~ In x (secret s') /\ ~ In x (masked s').
Proof.
  intros Hs Hl.
  destruct (later_sound s s' (in_session_consistent _ Hs)
              (in_session_sound _ Hs) Hl) as [A B _].
  now split.
Qed.

Lemma misses_are_distinct_and_absent_witness :
  let s := cat_session (guess_packets "xXyx") in
  let s' := Nat.iter 4 (fun s => session_of (loop_iter s)) s in
  incorrect s' = bytes_of "xy" /\ NoDup (incorrect s') /\
  forall x, In x (incorrect s') -> ~ In x (secret s') /\ ~ In x (masked s').
Proof.
  intros s s'. split; [reflexivity|].
  apply (misses_are_distinct_and_absent s s'); [apply cat_in_session|].
  apply (later_continues 4). vm_compute. reflexivity.
Defined.

(** X2. In a session, a letter shown in the masked word is the letter the
    word has at that position, and it is shown at every position where the
    word has it. *)
Theorem shown_letters_match_everywhere s s' :
  in_session s -> later s s' ->
  forall i c,
    nth_error (masked s') i = Some c -> c <> placeholder ->
    nth_error (secret s') i = Some c /\
    forall j, nth_error (secret s') j = Some c ->
              nth_error (masked s') j = Some c.
Proof.
  intros Hs Hl i c Hi Hc.
  pose proof (in_session_consistent _ Hs) as C.
  split.
  - eapply shape_nth; [apply (later_shape s s' C Hl) | exact Hi | exact Hc].
  - intros j Hj.
    apply (sound_complete _ (later_sound s s' C (in_session_sound _ Hs) Hl));
      auto.
    eapply nth_error_In, Hi.
Qed.

Lemma shown_letters_match_everywhere_witness :
  let s := Server.mkSession (bytes_of "banana") (bytes_of "______") []
             (mkConn (guess_packets "a") (welcome ++ board_packet (bytes_of "______") [])
                     None) in
  let s' := session_of (loop_iter s) in
  masked s' = bytes_of "_a_a_a" /\
  nth_error (secret s') 1 = Some 97 /\
  forall j, nth_error (secret s') j = Some 97 -> nth_error (masked s') j = Some 97.
Proof.
  intros s s'. split; [reflexivity|].
  apply (shown_letters_match_everywhere s s').
  - exists [bytes_of "banana"], 0%nat, (mkConn (0 :: guess_packets "a") [] None), s.
    split; [reflexivity | constructor].
  - apply (later_continues 1). vm_compute. reflexivity.
  - reflexivity.
  - discriminate.
Defined.

(** X3. In a session, a guess of a letter neither shown nor in the
    incorrect list makes progress.  If the word has the letter, the
    incorrect list stays, the letter is now shown and the placeholders are
    strictly fewer; if not, the masked word stays and the letter is added
    at the end of the incorrect list.  Either way the number of guesses
    the game can still take goes down. *)
Theorem fresh_guess_makes_progress s c rest :
  in_session s ->
  inp (io s) = 1 :: c :: rest ->
  ~ In (tolower c) (masked s) -> ~ In (tolower c) (incorrect s) ->
  let s' := session_of (loop_iter s) in
  (In (tolower c) (secret s) ->
   incorrect s' = incorrect s /\ In (tolower c) (masked s') /\
   (placeholders (masked s') < placeholders (masked s))%nat) /\
  (~ In (tolower c) (secret s) ->
   masked s' = masked s /\ incorrect s' = incorrect s ++ [tolower c]) /\
  (remaining s' < remaining s)%nat.
Proof.
  intros Hs Hi N1 N2 s'. apply in_session_consistent in Hs.
  set (l := tolower c) in *.
  set (s0 := set_io s (set_inp (io s) rest)).
  assert (C0 : consistent s0) by (now apply consistent_set_io).
  destruct (respond_fields (apply_guess s0 l)) as (F1 & F2 & F3 & _).
  assert (E : loop_iter s = respond (apply_guess s0 l))
    by apply (loop_iter_guess _ _ _ Hi).
  subst s'. rewrite E. clear E.
  assert (Lp : l <> placeholder).
  { intros ->. apply N1, Hs. }
  assert (Hit : In l (secret s) ->
          incorrect (session_of (respond (apply_guess s0 l))) = incorrect s /\
          In l (masked (session_of (respond (apply_guess s0 l)))) /\
          (placeholders (masked (session_of (respond (apply_guess s0 l))))
           < placeholders (masked s))%nat).
  { intros H. rewrite F2, F3.
    rewrite (apply_guess_hit s0 l) by assumption. cbn [incorrect masked s0 set_io].
    split; [reflexivity|]. split.
    - destruct (In_nth_error _ _ H) as [i Hn].
      apply (nth_error_In _ i). apply reveal_nth_hit; [|assumption].
      pose proof (shape_length _ _ (cons_shape _ Hs)) as L.
      unfold strlen in L. cbn [secret s0 set_io]. lia.
    - apply reveal_strict; auto. apply Hs. }
  assert (Miss : ~ In l (secret s) ->
          masked (session_of (respond (apply_guess s0 l))) = masked s /\
          incorrect (session_of (respond (apply_guess s0 l))) = incorrect s ++ [l]).
  { intros H. rewrite F2, F3.
    rewrite (apply_guess_miss s0 l); try assumption; [now split | apply Hs]. }
  split; [exact Hit|]. split; [exact Miss|].
  unfold remaining.
  destruct (in_dec Z.eq_dec l (secret s)) as [H|H].
  - destruct (Hit H) as (-> & _ & Lt). lia.
  - destruct (Miss H) as (-> & ->). rewrite length_app. cbn [length].
    pose proof (cons_budget _ Hs) as B.
    unfold num_incorrect, MAX_INCORRECT in *. lia.
Qed.

Lemma fresh_guess_makes_progress_witness :
  let s := cat_session (guess_packets "A") in
  let s' := session_of (loop_iter s) in
  masked s' = bytes_of "_a_" /\ (remaining s' < remaining s)%nat.
Proof.
  intros s s'. split; [reflexivity|].
  apply (fresh_guess_makes_progress s 65 []).
  - apply cat_in_session.
  - reflexivity.
  - cbn. intros [H|[H|[H|[]]]]; discriminate.
  - intros [].
Defined.

(** X4. In a session, a pass that leaves no placeholder takes the winning
    [break]: it was a guess of a letter of the word, the masked word now
    equals the word, the incorrect list is as before, the loop ends with
    nothing read beyond that guess, and on a connection that takes the
    bytes the server has sent three message packets: the text
    "The word was" followed by a space and a letter for each letter of the
    word, then "You Win!", then "Game Over!". *)
Theorem last_letter_wins s :
  in_session s ->
  let o := loop_iter s in
  placeholders (masked (session_of o)) = 0%nat ->
  o = Break Won (session_of o) /\
  masked (session_of o) = secret s /\
  incorrect (session_of o) = incorrect s /\
  (forall fuel, guess_loop (S fuel) s = Some (Won, session_of o)) /\
  (exists c, inp (io s) = 1 :: c :: inp (io (session_of o)) /\
             In (tolower c) (secret s)) /\
  (writable
     (length (message_packet (bytes_of "The word was"
                              ++ flat_map (fun c => [32; c]) (secret s))
              ++ message_packet (bytes_of "You Win!")
              ++ message_packet (bytes_of "Game Over!")))
     (io s) ->
   out (io (session_of o))
   = out (io s)
     ++ message_packet (bytes_of "The word was"
                        ++ flat_map (fun c => [32; c]) (secret s))
     ++ message_packet (bytes_of "You Win!")
     ++ message_packet (bytes_of "Game Over!")).
Proof.
  intros Hs o H0. apply in_session_consistent in Hs.
  assert (Hp : (0 < placeholders (masked s))%nat).
  { unfold placeholders. apply count_occ_In, Hs. }
  subst o. input_shape s.
  - rewrite (loop_iter_eof _ E) in H0. cbn [session_of] in H0. lia.
  - rewrite (loop_iter_malformed _ _ _ E N) in H0.
    cbn [session_of masked set_io] in H0. lia.
  - destruct (loop_iter_truncated _ E) as (c & F & _). rewrite F in H0.
    cbn [session_of masked set_io] in H0. lia.
  - assert (G := loop_iter_guess _ _ _ E).
    set (s0 := set_io s (set_inp (io s) rest)) in *.
    assert (C0 : consistent s0) by (now apply consistent_set_io).
    set (s1 := apply_guess s0 (tolower c)) in *.
    destruct (respond_fields s1) as (F1 & F2 & F3 & F4).
    rewrite G in H0 |- *. rewrite F2 in H0.
    assert (R : respond s1 = Break Won (send_final "You Win!" s1)).
    { unfold respond. apply all_revealed_true in H0. now rewrite H0. }
    assert (S1 : Forall2 (fun x d => x = placeholder \/ x = d)
                         (masked s1) (secret s1))
      by (apply apply_guess_shape, C0).
    assert (Hit : In (tolower c) (secret s) /\ incorrect s1 = incorrect s).
    { unfold s1 in H0 |- *.
      destruct (apply_guess_cases s0 (tolower c))
        as [Eq|[(_ & _ & I & Eq)|(_ & _ & _ & Eq)]];
        rewrite Eq in H0 |- *; cbn [masked incorrect s0 set_io] in *;
        try lia.
      now split. }
    rewrite R. cbn [session_of].
    destruct (send_final_fields "You Win!" s1) as (G1 & G2 & G3 & G4).
    split; [reflexivity|]. split.
    { rewrite G2, (shape_full _ _ S1 H0). unfold s1.
      now rewrite apply_guess_secret. }
    split; [rewrite G3; apply Hit|].
    split; [intros fuel; apply guess_loop_break; now rewrite G, R|].
    split.
    + exists c. rewrite G4. unfold s1. rewrite apply_guess_io.
      split; [exact E | apply Hit].
    + intros W. rewrite send_final_ok;
        unfold s1; rewrite apply_guess_secret, apply_guess_io;
        [reflexivity | exact W].
Qed.

Lemma last_letter_wins_witness :
  let s := Nat.iter 2 (fun s => session_of (loop_iter s))
             (cat_session (guess_packets "tca")) in
  let o := loop_iter s in
  masked s = bytes_of "c_t" /\
  o = Break Won (session_of o) /\
  masked (session_of o) = bytes_of "cat" /\
  out (io (session_of o))
  = out (io s) ++ message_packet (bytes_of "The word was c a t")
    ++ message_packet (bytes_of "You Win!")
    ++ message_packet (bytes_of "Game Over!").
Proof.
  intros s o.
  assert (Hs : in_session s).
  { apply (in_session_continues 2 (cat_session (guess_packets "tca")));
      [apply cat_in_session | reflexivity]. }
  destruct (last_letter_wins s Hs eq_refl) as (Ho & Hm & _ & _ & _ & Hout).
  split; [reflexivity|]. split; [exact Ho|]. split; [exact Hm|].
  apply Hout. exact I.
Defined.

(** X5. The server lowercases a guess before anything else: a pass on
    the guess byte [c] is the pass on [tolower c]. *)
Theorem guess_case_insensitive s c rest :
  inp (io s) = 1 :: c :: rest ->
  loop_iter s
  = loop_iter (mkSession (secret s) (masked s) (incorrect s)
                 (mkConn (1 :: tolower c :: rest) (out (io s)) (quota (io s)))).
Proof.
  intros Hi. rewrite (loop_iter_guess _ _ _ Hi).
  rewrite (loop_iter_guess _ (tolower c) rest) by reflexivity.
  now rewrite tolower_idempotent.
Qed.

Lemma guess_case_insensitive_witness :
  loop_iter (cat_session (guess_packets "T"))
  = loop_iter (cat_session (guess_packets "t")) /\
  masked (session_of (loop_iter (cat_session (guess_packets "T"))))
  = bytes_of "__t".
Proof.
  split; [|reflexivity].
  exact (guess_case_insensitive (cat_session (guess_packets "T")) 84 [] eq_refl).
Defined.

(** X6. When the client's stream ends at the top of the loop, after a
    lone length byte 1, or inside the bytes a malformed packet declares,
    the session ends by the connection-closed [break] within two passes:
    nothing is sent and word, masked word and incorrect list are
    untouched. *)
Theorem stream_end_closes_session s :
  inp (io s) = [] \/ inp (io s) = [1] \/
  (exists L payload, inp (io s) = L :: payload /\ L <> 1 /\
                     0 <= L < 256 /\ strlen payload < L) ->
  forall fuel,
    guess_loop (S (S fuel)) s
    = Some (Closed, mkSession (secret s) (masked s) (incorrect s)
                      (mkConn [] (out (io s)) (quota (io s)))).
Proof.
  intros H fuel. destruct H as [E|[E|(L & payload & E & N & R & Hp)]].
  - rewrite (guess_loop_break _ _ _ _ (loop_iter_eof _ E)).
    destruct s as [a b c [i o q]]; cbn in *. now subst.
  - apply guess_loop_break. unfold loop_iter, recv1. rewrite E. reflexivity.
  - rewrite (guess_loop_continue _ _ _ (loop_iter_malformed _ _ _ E N)).
    assert (D : drain (Z.to_nat L) L (set_inp (io s) payload)
                = set_inp (io s) []).
    { destruct (Z.to_nat L) as [|n] eqn:F; [unfold strlen in Hp; lia|].
      cbn [drain].
      replace (0 <? L) with true by (symmetry; apply Z.ltb_lt; lia).
      replace (L <? 256) with true by (symmetry; apply Z.ltb_lt; lia).
      unfold recv_all. cbn [inp set_inp].
      replace (Z.to_nat L <=? length payload)%nat with false; [reflexivity|].
      symmetry. apply Nat.leb_gt. unfold strlen in Hp. lia. }
    rewrite D. apply guess_loop_break. now apply loop_iter_eof.
Qed.

Lemma stream_end_closes_session_witness :
  guess_loop 2 (cat_session [5; 99; 97])
  = Some (Closed, cat_session []).
Proof.
  apply (stream_end_closes_session (cat_session [5; 99; 97])).
  right; right. exists 5, [99; 97].
  split; [reflexivity|]. split; [discriminate|]. split; [lia | cbn; lia].
Defined.

End SessionFacts.

(** ** The word table *)

Section WordTable.

Import Server.

Lemma tolower_isalpha c : isalpha c = true -> islower (tolower c) = true.
Proof. unfold isalpha, islower, tolower. intros H. destruct (_ && _) eqn:E; lia. Qed.

Lemma load_line_stored line w : load_line line = Some w -> stored_word w.
Proof.
  unfold load_line.
  destruct (_ =? 0) eqn:E0; [discriminate|].
  destruct (_ <? _) eqn:E1; [discriminate|].
  destruct (forallb isalpha _) eqn:A; [|discriminate].
  cbn [negb]. intros [= <-].
  apply Z.eqb_neq in E0. apply Z.ltb_ge in E1.
  split.
  - unfold strlen in *. rewrite length_map. lia.
  - rewrite forallb_forall in *. intros x Hx.
    apply in_map_iff in Hx as (y & <- & Hy). apply tolower_isalpha. auto.
Qed.

Lemma load_loop_stored fuel f words :
  Forall stored_word words -> Z.of_nat (length words) <= MAX_WORDS ->
  Forall stored_word (load_loop fuel f words) /\
  Z.of_nat (length (load_loop fuel f words)) <= MAX_WORDS.
Proof.
  revert f words. induction fuel as [|fuel IH]; intros f words Hw Hn; cbn.
  - auto.
  - destruct (_ <? _) eqn:E; cbn [negb]; [|auto].
    apply Z.ltb_lt in E.
    destruct (fgets 256 f) as [[line f']|]; [|auto].
    destruct (load_line line) as [w|] eqn:L; [|now apply IH].
    apply IH.
    + apply Forall_app. split; [assumption|].
      constructor; [|constructor]. eapply load_line_stored, L.
    + rewrite length_app. cbn. lia.
Qed.

Lemma load_words_table file words :
  load_words file = Some words ->
  words <> [] /\ Z.of_nat (length words) <= MAX_WORDS /\
  Forall stored_word words.
Proof.
  unfold load_words. intros H.
  destruct (load_loop_stored (length file) file []) as [A B];
    [constructor | cbn; unfold MAX_WORDS; lia|].
  destruct (load_loop _ _ _) as [|w ws] eqn:E; [discriminate|].
  injection H as <-. split; [discriminate|]. now split.
Qed.

(** X7. Whatever the file, a table that [load_words] returns is not
    empty, has at most 1024 words, and each word is 1 to 16 lowercase
    letters. *)
Theorem loaded_words_are_valid file words :
  load_words file = Some words ->
  words <> [] /\ Z.of_nat (length words) <= MAX_WORDS /\
  Forall stored_word words.
Proof. apply load_words_table. Qed.

Lemma loaded_words_are_valid_witness :
  load_words (bytes_of "Cat!" ++ [10] ++ bytes_of "DOG" ++ [13; 10]
              ++ bytes_of "abcdefghijklmnopq" ++ [10] ++ bytes_of "eel")
  = Some [bytes_of "dog"; bytes_of "eel"] /\
  Forall stored_word [bytes_of "dog"; bytes_of "eel"].
Proof.
  split; [reflexivity|].
  apply (loaded_words_are_valid
           (bytes_of "Cat!" ++ [10] ++ bytes_of "DOG" ++ [13; 10]
            ++ bytes_of "abcdefghijklmnopq" ++ [10] ++ bytes_of "eel")).
  reflexivity.
Defined.

(** X8. With a table that [load_words] returned, whatever [rand()]
    gives, the word guard of [send_game_state] never stops a session: on a
    connection that delivers a first byte and takes the welcome and the
    board, [start_session] enters the guess loop with a word of the
    table. *)
Theorem loaded_table_always_starts file words rnd c b rest :
  load_words file = Some words ->
  inp c = b :: rest ->
  writable (length welcome + 3 + 16) c ->
  exists s0,
    start_session words rnd c = inr s0 /\ In (secret s0) words /\
    masked s0 = repeat placeholder (length (secret s0)) /\ incorrect s0 = [].
Proof.
  intros Hl Hi W.
  destruct (load_words_table _ _ Hl) as (Ne & _ & V).
  set (w := nth (rnd mod length words) words []).
  assert (Hin : In w words).
  { apply nth_In. apply Nat.mod_upper_bound. now destruct words. }
  assert (Sw : stored_word w) by (rewrite Forall_forall in V; auto).
  destruct Sw as [Len _].
  eexists. split; [|split; [|split]].
  - apply (start_session_ok words rnd c b rest w); auto.
    eapply writable_le; [|exact W].
    rewrite length_app. unfold board_packet. cbn [length app].
    rewrite length_app, repeat_length. cbn [length].
    unfold strlen, MAX_WORD_LEN in Len. lia.
  - exact Hin.
  - reflexivity.
  - reflexivity.
Qed.

Lemma loaded_table_always_starts_witness :
  exists s0,
    start_session [bytes_of "dog"; bytes_of "eel"] 7 (mkConn [0] [] None) = inr s0 /\
    In (secret s0) [bytes_of "dog"; bytes_of "eel"] /\
    masked s0 = repeat placeholder (length (secret s0)) /\ incorrect s0 = [].
Proof.
  apply (loaded_table_always_starts
           (bytes_of "DOG" ++ [10] ++ bytes_of "eel")
           [bytes_of "dog"; bytes_of "eel"] 7 (mkConn [0] [] None) 0 []);
    [reflexivity | reflexivity | exact I].
Defined.

Lemma fgets_aux_newline n (l rest : list Z) :
  ~ In 10 l -> (length l < n)%nat ->
  fgets_aux n (l ++ 10 :: rest) = (l ++ [10], rest).
Proof.
  revert n. induction l as [|c l IH]; intros n Hn Hl.
  - destruct n; [lia|]. reflexivity.
  - destruct n; [cbn in Hl; lia|]. cbn.
    replace (c =? 10) with false
      by (symmetry; apply Z.eqb_neq; intros ->; apply Hn; now left).
    rewrite IH; [reflexivity | intros H; apply Hn; now right | cbn in Hl; lia].
Qed.

Lemma load_loop_lines lines : forall words fuel,
  Forall (fun l => ~ In 10 l /\ (length l < 255)%nat) lines ->
  (length lines <= fuel)%nat ->
  Z.of_nat (length words + length lines) <= MAX_WORDS ->
  load_loop fuel (flat_map (fun l => l ++ [10]) lines) words
  = words ++ words_of_lines lines.
Proof.
  induction lines as [|l lines IH]; intros words fuel Hl Hf Hn.
  - cbn. rewrite app_nil_r. destruct fuel; [reflexivity|]. cbn.
    destruct (_ <? _); reflexivity.
  - destruct fuel as [|fuel]; [cbn in Hf; lia|].
    inversion Hl as [|? ? [Hnl Hlen] Hrest]; subst.
    cbn [flat_map load_loop].
    replace (Z.of_nat (length words) <? MAX_WORDS) with true
      by (symmetry; apply Z.ltb_lt; cbn [length] in Hn; lia).
    cbn [negb].
    assert (F : fgets 256 ((l ++ [10]) ++ flat_map (fun l => l ++ [10]) lines)
                = Some (l ++ [10], flat_map (fun l => l ++ [10]) lines)).
    { rewrite <- app_assoc. cbn [app]. unfold fgets.
      destruct (l ++ 10 :: _) eqn:E; [now destruct l|]. rewrite <- E.
      f_equal. apply fgets_aux_newline; [assumption | cbn; lia]. }
    rewrite F. unfold words_of_lines. cbn [flat_map].
    fold (words_of_lines lines).
    destruct (load_line (l ++ [10])) as [w|].
    + rewrite IH; auto.
      * now rewrite <- app_assoc.
      * cbn in Hf; lia.
      * rewrite length_app. cbn [length] in *. lia.
    + rewrite IH; auto; cbn [length] in *; lia.
Qed.

(** X9. A file of at most 1024 newline-terminated lines, each shorter
    than 255 bytes: the table is the words of the lines that pass
    [load_line], in file order, and the load fails exactly when no line
    passes. *)
Theorem load_words_keeps_file_order lines :
  Forall (fun l => ~ In 10 l /\ (length l < 255)%nat) lines ->
  Z.of_nat (length lines) <= MAX_WORDS ->
  load_words (flat_map (fun l => l ++ [10]) lines)
  = match words_of_lines lines with
    | [] => None
    | ws => Some ws
    end.
Proof.
  intros Hl Hn. unfold load_words.
  rewrite (load_loop_lines lines []); auto.
  - cbn [app]. now destruct (words_of_lines lines).
  - clear. induction lines as [|l lines IH]; cbn; [lia|].
    rewrite !length_app. cbn. lia.
Qed.

Lemma load_words_keeps_file_order_witness :
  load_words (flat_map (fun l => l ++ [10])
                [bytes_of "Zebra"; bytes_of "two words"; []; bytes_of "ant"])
  = Some [bytes_of "zebra"; bytes_of "ant"].
Proof.
  apply (load_words_keeps_file_order
           [bytes_of "Zebra"; bytes_of "two words"; []; bytes_of "ant"]).
  - repeat constructor; cbn; try lia;
      intro H; repeat (destruct H as [H|H]; [discriminate|]); exact H.
  - cbn. unfold MAX_WORDS. lia.
Defined.

(** X10. A line of 1 to 16 letters is stored in lowercase whether it
    ends at the end of the file, with a newline, with a carriage return
    (so also CR LF) or at a NUL byte; what follows the terminator is
    ignored. *)
Theorem load_line_terminators (w tail : list Z) :
  forallb isalpha w = true -> 1 <= strlen w <= MAX_WORD_LEN ->
  tail = [] \/ (exists t rest, tail = t :: rest /\ (t = 0 \/ t = 10 \/ t = 13)) ->
  load_line (w ++ tail) = Some (map tolower w).
Proof.
  intros Ha Hl Ht.
  assert (S : strip_newline (w ++ tail) = w).
  { clear Hl. induction w as [|c w IH].
    - destruct Ht as [-> | (t & rest & -> & T)]; [reflexivity|]. cbn.
      destruct T as [-> | [-> | ->]]; reflexivity.
    - cbn in Ha. apply andb_true_iff in Ha as [Hc Ha]. cbn.
      destruct (isalpha_printable c Hc) as (A & B & C).
      apply Z.eqb_neq in A, B, C. rewrite A, B, C. cbn. now rewrite IH. }
  unfold load_line. rewrite S.
  replace (strlen w =? 0) with false by (symmetry; apply Z.eqb_neq; lia).
  replace (MAX_WORD_LEN <? strlen w) with false by (symmetry; apply Z.ltb_ge; lia).
  now rewrite Ha.
Qed.

Lemma load_line_terminators_witness :
  load_line (bytes_of "Hangman" ++ [13; 10]) = Some (bytes_of "hangman").
Proof.
  apply (load_line_terminators (bytes_of "Hangman") [13; 10]).
  - reflexivity.
  - cbn. unfold MAX_WORD_LEN. lia.
  - right. exists 13, [10]. auto.
Defined.

End WordTable.

(** ** Packets between the two programs *)

Section Packets.

Import Server Client.

Lemma bytes_eqb_eq (a b : list Z) : bytes_eqb a b = true <-> a = b.
Proof.
  revert b. induction a as [|x a IH]; intros [|y b]; cbn;
    try (split; [discriminate|discriminate]); [tauto|].
  rewrite andb_true_iff, Z.eqb_eq, IH. split; [intros [-> ->]|intros [= -> ->]]; auto.
Qed.

Lemma recv_all_some n c d c' :
  recv_all n c = (Some d, c') ->
  inp c = d ++ inp c' /\ length d = Z.to_nat n /\
  out c' = out c /\ quota c' = quota c.
Proof.
  unfold recv_all. destruct (_ <=? _)%nat eqn:E; [|discriminate].
  apply Nat.leb_le in E. intros [= <- <-]. cbn.
  rewrite firstn_skipn, length_firstn. repeat split. lia.
Qed.


Lemma classify_text p :
  snd (classify_and_print p)
  = match p with
    | Message msg_flag data => message_text msg_flag data
    | GameControl _ _ word_state incorrect => board_text word_state incorrect
    end.
Proof.
  destruct p as [f d|]; [|reflexivity]. cbn [classify_and_print].
  destruct (_ && _); [reflexivity|]. destruct (_ && _); reflexivity.
Qed.

Lemma recv_and_print_packet w p c :
  recv_one_packet (sock w) = (Some p, c) ->
  recv_and_print_one_packet w
  = (fst (classify_and_print p),
     mkClient c (stdin w) (stdout w ++ snd (classify_and_print p))).
Proof.
  intros H. unfold recv_and_print_one_packet. rewrite H.
  now destruct (classify_and_print p).
Qed.

(** X11. A message of at least one byte sent by [send_message_packet] on
    a connection that takes it and read by the client from those bytes:
    the client holds the length, capped at 255, and the first 255 bytes of
    the message (all of it when it is that short), and prints them as one
    line.  A longer message is cut, not rejected. *)
Theorem message_round_trip msg c :
  msg <> [] ->
  writable (length (message_packet msg)) c ->
  let flag := if 255 <? strlen msg then 255 else strlen msg in
  let data := firstn 255 msg in
  (strlen msg <= 255 -> data = msg /\ flag = strlen msg) /\
  send_message_packet msg c = (0, sent (flag :: data) c) /\
  forall (w : client) rest,
    inp (sock w) = (flag :: data) ++ rest ->
    recv_one_packet (sock w) = (Some (Message flag data), set_inp (sock w) rest) /\
    snd (recv_and_print_one_packet w)
    = mkClient (set_inp (sock w) rest) (stdin w)
        (stdout w ++ bytes_of ">>>" ++ c_str data ++ [10]).
Proof.
  intros Hne W flag data.
  assert (Hlen : Z.to_nat flag = length data /\ 0 < flag).
  { subst flag data. unfold strlen. rewrite length_firstn.
    destruct msg; [contradiction|]. cbn [length].
    destruct (255 <? _) eqn:E; [apply Z.ltb_lt in E|apply Z.ltb_ge in E]; lia. }
  destruct Hlen as [Hl Hp].
  split; [|split].
  - intros H. subst flag data.
    replace (255 <? strlen msg) with false by (symmetry; apply Z.ltb_ge; lia).
    split; [|reflexivity]. apply firstn_all2. unfold strlen in H. lia.
  - now apply send_message_packet_ok.
  - intros w rest Hw.
    assert (R : recv_one_packet (sock w)
                = (Some (Message flag data), set_inp (sock w) rest))
      by (apply recv_message; auto).
    split; [exact R|].
    rewrite (recv_and_print_packet _ _ _ R). cbn [snd].
    rewrite classify_text. unfold message_text.
    now rewrite Hl, firstn_all.
Qed.

Lemma message_round_trip_witness :
  send_message_packet (bytes_of "You Win!") (mkConn [] [] (Some 9%nat))
  = (0, mkConn [] (8 :: bytes_of "You Win!") (Some 0%nat)) /\
  recv_one_packet (mkConn (8 :: bytes_of "You Win!" ++ [0]) [] None)
  = (Some (Message 8 (bytes_of "You Win!")), mkConn [0] [] None).
Proof.
  destruct (message_round_trip (bytes_of "You Win!") (mkConn [] [] (Some 9%nat)))
    as (_ & S & R); [discriminate | cbn; lia |].
  split; [exact S|].
  exact (proj1 (R (mkClient (mkConn (8 :: bytes_of "You Win!" ++ [0]) [] None) [] [])
                  [0] eq_refl)).
Defined.

(** X12. Whatever bytes arrive, a packet the client accepts fits its
    buffers and is exactly what it consumed: a message has a length byte
    of 1 to 255 and that many data bytes (never an empty message), a board
    has a word length of at most 8 and at most 16 data bytes in all, split
    at the word length; the input was the packet's bytes followed by what
    is left, and nothing was sent. *)
Theorem decoded_packets_fit_buffers c p c' :
  Forall is_byte (inp c) ->
  recv_one_packet c = (Some p, c') ->
  fits_buffers p /\ inp c = packet_wire p ++ inp c' /\ out c' = out c.
Proof.
  intros Hb. unfold recv_one_packet.
  destruct (recv_all 1 c) as [[[|msg_flag [|? ?]]|] c1] eqn:E1; try discriminate.
  apply recv_all_some in E1 as (I1 & _ & O1 & _).
  assert (B1 : is_byte msg_flag).
  { rewrite I1 in Hb. now inversion Hb. }
  assert (Hb1 : Forall is_byte (inp c1)).
  { rewrite I1 in Hb. now inversion Hb. }
  unfold is_byte in *.
  destruct (0 <? msg_flag) eqn:F.
  - apply Z.ltb_lt in F.
    destruct (recv_all msg_flag c1) as [[data|] c2] eqn:E2; [|discriminate].
    apply recv_all_some in E2 as (I2 & L2 & O2 & _).
    intros [= <- <-]. cbn [fits_buffers packet_wire].
    split; [split; [lia | unfold strlen; lia]|].
    split; [rewrite I1, I2; reflexivity | congruence].
  - apply Z.ltb_ge in F.
    destruct (recv_all 2 c1) as [[[|wl [|ni [|? ?]]]|] c2] eqn:E2;
      try discriminate.
    apply recv_all_some in E2 as (I2 & _ & O2 & _).
    assert (B2 : 0 <= wl < 256 /\ 0 <= ni < 256).
    { rewrite I2 in Hb1. inversion Hb1 as [|? ? Hw Hr]; subst.
      inversion Hr; subst. auto. }
    destruct (8 <? wl) eqn:G1; [discriminate|]. apply Z.ltb_ge in G1.
    destruct (16 <? wl + ni) eqn:G2; [discriminate|]. apply Z.ltb_ge in G2.
    destruct (recv_all (wl + ni) c2) as [[data|] c3] eqn:E3; [|discriminate].
    apply recv_all_some in E3 as (I3 & L3 & O3 & _).
    intros [= <- <-]. cbn [fits_buffers packet_wire].
    assert (msg_flag = 0) as -> by lia.
    split; [|split].
    + repeat split; try lia; unfold strlen.
      * rewrite length_firstn. lia.
      * rewrite length_skipn. lia.
    + rewrite firstn_skipn, I1, I2, I3. reflexivity.
    + congruence.
Qed.

Lemma decoded_packets_fit_buffers_witness :
  exists p c',
    recv_one_packet (mkConn [0; 2; 1; 95; 111; 120; 7] [] None) = (Some p, c') /\
    fits_buffers p /\ packet_wire p ++ inp c' = [0; 2; 1; 95; 111; 120; 7].
Proof.
  eexists. eexists. split; [reflexivity|].
  destruct (decoded_packets_fit_buffers
              (mkConn [0; 2; 1; 95; 111; 120; 7] [] None) _ _
              ltac:(repeat constructor; unfold is_byte; lia) eq_refl)
    as (F & I & _).
  split; [exact F | symmetry; exact I].
Defined.

(** X13. The client's two sentinels are matched on the whole message: a
    message is classified as overloaded exactly when its data is
    "server-overloaded", as game over exactly when it is "Game Over!", and
    as an ordinary message otherwise; in each case it is printed the same
    way. *)
Theorem sentinels_match_exactly msg_flag data :
  strlen data = msg_flag ->
  let r := fst (classify_and_print (Message msg_flag data)) in
  (r = 1 <-> data = bytes_of "server-overloaded") /\
  (r = 2 <-> data = bytes_of "Game Over!") /\
  (r = 4 <-> data <> bytes_of "server-overloaded" /\
             data <> bytes_of "Game Over!") /\
  (r = 1 \/ r = 2 \/ r = 4).
Proof.
  intros Hl r. subst r. cbn [classify_and_print].
  set (over := bytes_of "server-overloaded").
  set (gover := bytes_of "Game Over!").
  assert (M : forall s, (msg_flag =? strlen s) && memcmp_eq data s (strlen s) = true
                        <-> data = s).
  { intros s. rewrite andb_true_iff, Z.eqb_eq. unfold memcmp_eq.
    rewrite bytes_eqb_eq. split.
    - intros [E H]. rewrite <- E, <- Hl in H at 1.
      now rewrite !firstn_strlen in H.
    - intros ->. split; [now symmetry|]. reflexivity. }
  assert (Ne : over <> gover) by discriminate.
  destruct (_ && memcmp_eq data over _) eqn:A.
  - apply M in A. cbn [fst]. repeat split; try tauto; try discriminate;
      try (intros; congruence); try (intros [? ?]; contradiction).
  - assert (data <> over) by (intros H; apply M in H; congruence).
    destruct (_ && memcmp_eq data gover _) eqn:B; cbn [fst].
    + apply M in B. repeat split; try tauto; try discriminate;
        try (intros; congruence); try (intros [? ?]; contradiction).
    + assert (data <> gover) by (intros H'; apply M in H'; congruence).
      repeat split; try tauto; try discriminate; try (intros; congruence).
Qed.

Lemma sentinels_match_exactly_witness :
  fst (classify_and_print (Message 11 (bytes_of "Game Over!!"))) = 4.
Proof.
  destruct (sentinels_match_exactly 11 (bytes_of "Game Over!!") eq_refl)
    as (_ & _ & H & _).
  apply H. split; discriminate.
Defined.

End Packets.

(** ** The client against what a session sends *)

Section ClientReads.

Import Server Client.

Lemma read_packets_skip fuel w flag data rest :
  inp (sock w) = flag :: data ++ rest -> 0 < flag ->
  Z.to_nat flag = length data ->
  fst (classify_and_print (Message flag data)) = 4 ->
  read_packets (S fuel) w
  = read_packets fuel (mkClient (set_inp (sock w) rest) (stdin w)
                         (stdout w ++ message_text flag data)).
Proof.
  intros Hi Hf Hl Hc. cbn [read_packets].
  rewrite (recv_and_print_packet w _ _ (recv_message _ _ _ _ Hi Hf Hl)).
  rewrite Hc, classify_text. reflexivity.
Qed.

Lemma read_packets_stop fuel w flag data rest :
  inp (sock w) = flag :: data ++ rest -> 0 < flag ->
  Z.to_nat flag = length data ->
  fst (classify_and_print (Message flag data)) = 2 ->
  read_packets (S fuel) w
  = Some (2, mkClient (set_inp (sock w) rest) (stdin w)
               (stdout w ++ message_text flag data)).
Proof.
  intros Hi Hf Hl Hc. cbn [read_packets].
  rewrite (recv_and_print_packet w _ _ (recv_message _ _ _ _ Hi Hf Hl)).
  rewrite Hc, classify_text. reflexivity.
Qed.

Lemma word_msg_length sec : strlen (word_msg sec) = 12 + 2 * strlen sec.
Proof.
  unfold word_msg, strlen. rewrite length_app.
  change (length (bytes_of "The word was")) with 12%nat.
  induction sec as [|c sec IH]; cbn [flat_map length app] in *; lia.
Qed.

Lemma classify_word_msg sec :
  fst (classify_and_print (Message (strlen (word_msg sec)) (word_msg sec))) = 4.
Proof.
  cbn [classify_and_print]. rewrite word_msg_length.
  change (strlen (bytes_of "server-overloaded")) with 17.
  change (strlen (bytes_of "Game Over!")) with 10.
  replace (12 + 2 * strlen sec =? 17) with false
    by (symmetry; apply Z.eqb_neq; lia).
  replace (12 + 2 * strlen sec =? 10) with false
    by (symmetry; apply Z.eqb_neq; unfold strlen; lia).
  reflexivity.
Qed.





(** X15. The three packets that end a game, read by the client's packet
    loop: for a word of at most 16 letters the reveal message and the
    verdict are printed and passed over, and the loop stops at
    "Game Over!" with the game-over code, having consumed exactly those
    three packets. *)
Theorem client_stops_at_game_over sec verdict (w : client) rest fuel :
  strlen sec <= 16 ->
  verdict = "You Win!"%string \/ verdict = "You Lose."%string ->
  inp (sock w) = final_packets sec verdict ++ rest ->
  read_packets (3 + fuel) w
  = Some (2, mkClient (set_inp (sock w) rest) (stdin w)
               (stdout w
                ++ message_text (strlen (word_msg sec)) (word_msg sec)
                ++ message_text (strlen (bytes_of verdict)) (bytes_of verdict)
                ++ message_text 10 (bytes_of "Game Over!"))).
Proof.
  intros Hl Hv Hi.
  assert (Wl := word_msg_length sec).
  assert (P1 : message_packet (word_msg sec)
               = strlen (word_msg sec) :: word_msg sec).
  { unfold message_packet.
    replace (255 <? strlen (word_msg sec)) with false
      by (symmetry; apply Z.ltb_ge; lia).
    f_equal. apply firstn_all2. unfold strlen in *. lia. }
  unfold final_packets in Hi. rewrite P1 in Hi.
  change (3 + fuel)%nat with (S (S (S fuel))).
  rewrite (read_packets_skip _ w (strlen (word_msg sec)) (word_msg sec)
             (message_packet (bytes_of verdict)
              ++ message_packet (bytes_of "Game Over!") ++ rest)).
  2:{ rewrite Hi. cbn [app]. now rewrite <- !app_assoc. }
  2:{ unfold strlen in *. lia. }
  2:{ unfold strlen. now rewrite Nat2Z.id. }
  2:{ apply classify_word_msg. }
  set (w1 := mkClient _ _ _).
  rewrite (read_packets_skip _ w1 (strlen (bytes_of verdict)) (bytes_of verdict)
             (message_packet (bytes_of "Game Over!") ++ rest)).
  2:{ destruct Hv as [-> | ->]; reflexivity. }
  2:{ destruct Hv as [-> | ->]; reflexivity. }
  2:{ destruct Hv as [-> | ->]; reflexivity. }
  2:{ destruct Hv as [-> | ->]; reflexivity. }
  set (w2 := mkClient _ _ _).
  rewrite (read_packets_stop _ w2 10 (bytes_of "Game Over!") rest);
    try reflexivity.
  unfold w2, w1. cbn [sock stdin stdout set_inp inp out quota].
  now rewrite <- !app_assoc.
Qed.

Lemma client_stops_at_game_over_witness :
  read_packets 3
    (mkClient (mkConn (final_packets (bytes_of "cat") "You Lose.") [] None) [] [])
  = Some (2, mkClient (mkConn [] [] None) []
               (bytes_of ">>>The word was c a t" ++ [10]
                ++ bytes_of ">>>You Lose." ++ [10]
                ++ bytes_of ">>>Game Over!" ++ [10])).
Proof.
  exact (client_stops_at_game_over (bytes_of "cat") "You Lose."
           (mkClient (mkConn (final_packets (bytes_of "cat") "You Lose.") [] None)
                     [] [])
           [] 0 ltac:(cbn; lia) (or_intror eq_refl) eq_refl).
Defined.

(** X16. A client whose first packet is one of the two sentinels,
    "server-overloaded" or "Game Over!", prints it and exits with status
    0: it does not prompt, reads nothing from standard input and sends
    nothing. *)
Theorem sentinel_first_packet_ends_client msg (w : client) rest :
  msg = bytes_of "server-overloaded" \/ msg = bytes_of "Game Over!" ->
  inp (sock w) = message_packet msg ++ rest ->
  main w = Some (0, mkClient (set_inp (sock w) rest) (stdin w)
                      (stdout w ++ bytes_of ">>>" ++ msg ++ [10])).
Proof.
  intros Hm Hi. unfold main.
  assert (R : recv_one_packet (sock w)
              = (Some (Message (strlen msg) msg), set_inp (sock w) rest)).
  { apply recv_message.
    - rewrite Hi. destruct Hm as [-> | ->]; reflexivity.
    - destruct Hm as [-> | ->]; reflexivity.
    - unfold strlen. now rewrite Nat2Z.id. }
  rewrite (recv_and_print_packet _ _ _ R).
  destruct Hm as [-> | ->]; reflexivity.
Qed.

Lemma sentinel_first_packet_ends_client_witness :
  main (mkClient (mkConn (message_packet (bytes_of "server-overloaded")) [] None)
                 (bytes_of "y") [])
  = Some (0, mkClient (mkConn [] [] None) (bytes_of "y")
               (bytes_of ">>>server-overloaded" ++ [10])).
Proof.
  apply (sentinel_first_packet_ends_client (bytes_of "server-overloaded")
           (mkClient (mkConn (message_packet (bytes_of "server-overloaded")) [] None)
                     (bytes_of "y") []) []).
  - now left.
  - reflexivity.
Defined.

End ClientReads.

(** ** What the client sends *)

Section ClientSends.

Import Client.







End ClientSends.

(** ** Admission and the start of a handler *)

Section Admission.

Import Server Acceptor.

Lemma reap_closed n a :
  0 <= a -> reap n a = Z.max 0 (a - Z.of_nat n).
Proof.
  revert a. induction n as [|n IH]; intros a Ha.
  - cbn. lia.
  - cbn [reap]. destruct (0 <? a) eqn:E.
    + apply Z.ltb_lt in E. rewrite IH by lia. lia.
    + apply Z.ltb_ge in E. rewrite IH by lia. lia.
Qed.

Lemma accept_turn_bounds words a t :
  0 <= a <= MAX_CLIENTS ->
  0 <= fst (accept_turn words a t) <= MAX_CLIENTS.
Proof.
  intros Ha. unfold accept_turn, MAX_CLIENTS in *.
  rewrite (reap_closed (reaped_before t) a) by lia.
  destruct (accepted t) as [c|]; [|cbn; lia].
  rewrite reap_closed by lia.
  destruct (3 <=? _) eqn:E; [cbn; lia|]. apply Z.leb_gt in E.
  destruct (negb (fork_ok t)); cbn; lia.
Qed.

(** X18. Started at a count between 0 and 3, the parent's
    [active_clients] stays between 0 and 3 over any sequence of turns of
    the accept loop, whatever [waitpid], [accept] and [fork] return. *)
Theorem active_clients_stay_in_bounds words a turns :
  0 <= a <= MAX_CLIENTS ->
  0 <= fst (accept_loop words a turns) <= MAX_CLIENTS.
Proof.
  revert a. induction turns as [|t turns IH]; intros a Ha; [exact Ha|].
  cbn [accept_loop].
  pose proof (accept_turn_bounds words a t Ha) as B.
  destruct (accept_turn words a t) as [a1 r]. cbn [fst] in B.
  specialize (IH a1 B). destruct (accept_loop words a1 turns). exact IH.
Qed.

Lemma active_clients_stay_in_bounds_witness :
  let busy := mkTurn 0 (Some (mkConn [] [] None)) 0 true 0 in
  fst (accept_loop [bytes_of "cat"] 0 [busy; busy; busy; busy; busy]) = 3 /\
  0 <= fst (accept_loop [bytes_of "cat"] 0 [busy; busy; busy; busy; busy]) <= 3.
Proof.
  intros busy. split; [reflexivity|].
  apply (active_clients_stay_in_bounds [bytes_of "cat"] 0).
  unfold MAX_CLIENTS. lia.
Defined.

(** X19. One turn of the accept loop with a connection accepted, at a
    count [a] of at least 0: the children collected by the two [waitpid]
    loops lower the count by their number, but not below 0.  If the count
    is then 3 or more, the connection gets the "server-overloaded" message
    and nothing is read from it, no handler runs and the count stays; if
    it is less and [fork] succeeds, the handler runs on the connection and
    the count goes up by one; if [fork] fails the connection is dropped
    untouched. *)
Theorem accept_turn_admission words a t c :
  0 <= a ->
  accepted t = Some c ->
  let a2 := Z.max 0 (a - Z.of_nat (reaped_before t + reaped_after t)) in
  (MAX_CLIENTS <= a2 ->
   writable (length (message_packet (bytes_of "server-overloaded"))) c ->
   accept_turn words a t
   = (a2, Rejected (mkConn (inp c)
                      (out c ++ message_packet (bytes_of "server-overloaded"))
                      (option_map (fun q => (q - 18)%nat) (quota c))))) /\
  (a2 < MAX_CLIENTS -> fork_ok t = true ->
   accept_turn words a t
   = (a2 + 1, Child (handle_client words (child_rand t) c))) /\
  (a2 < MAX_CLIENTS -> fork_ok t = false ->
   accept_turn words a t = (a2, ForkFailed c)).
Proof.
  intros Ha Hc a2.
  assert (R : reap (reaped_after t) (reap (reaped_before t) a) = a2).
  { rewrite (reap_closed (reaped_before t) a) by lia.
    rewrite reap_closed by lia. subst a2. lia. }
  unfold accept_turn. rewrite Hc, R.
  split; [|split].
  - intros Hf W. apply Z.leb_le in Hf. rewrite Hf.
    now rewrite send_message_packet_ok.
  - intros Hf Fk. apply Z.leb_gt in Hf. now rewrite Hf, Fk.
  - intros Hf Fk. apply Z.leb_gt in Hf. now rewrite Hf, Fk.
Qed.

Lemma accept_turn_admission_witness :
  accept_turn [bytes_of "cat"] 3 (mkTurn 0 (Some (mkConn [0] [] None)) 0 true 0)
  = (3, Rejected (mkConn [0] (message_packet (bytes_of "server-overloaded")) None))
  /\
  fst (accept_turn [bytes_of "cat"] 3
         (mkTurn 1 (Some (mkConn [0] [] None)) 0 true 0)) = 3.
Proof.
  split.
  - apply (proj1 (accept_turn_admission [bytes_of "cat"] 3
                    (mkTurn 0 (Some (mkConn [0] [] None)) 0 true 0)
                    (mkConn [0] [] None) ltac:(lia) eq_refl));
      [unfold MAX_CLIENTS; cbn; lia | exact I].
  - reflexivity.
Defined.

(** X20. A client that closes before sending its first byte gets the
    welcome message and nothing else: no word is chosen and no board is
    sent. *)
Theorem client_leaves_before_start words rnd c :
  inp c = [] ->
  writable (length welcome) c ->
  start_session words rnd c = inl (sent welcome c) /\
  handle_client words rnd c = sent welcome c.
Proof.
  intros Hi W.
  assert (S : start_session words rnd c = inl (sent welcome c)).
  { unfold start_session. rewrite send_message_packet_ok by exact W.
    cbn [Z.ltb Z.compare]. unfold recv1. cbn [inp sent]. now rewrite Hi. }
  split; [exact S|]. unfold handle_client. now rewrite S.
Qed.

Lemma client_leaves_before_start_witness :
  handle_client [bytes_of "cat"] 0 (mkConn [] [] None)
  = mkConn [] welcome None.
Proof.
  exact (proj2 (client_leaves_before_start [bytes_of "cat"] 0
                  (mkConn [] [] None) eq_refl I)).
Defined.

End Admission.

(** ** How a session ends *)

Section Endings.

Import Server.

Lemma send_game_state_reliable masked incorrect wl ni c :
  quota c = None ->
  quota (snd (send_game_state masked incorrect wl ni c)) = None /\
  ((fst (send_game_state masked incorrect wl ni c) <? 0) = true ->
   wl = 0 \/ MAX_WORD_LEN < wl \/ MAX_WORD_LEN + MAX_WORD_LEN < wl + ni).
Proof.
  intros Hq. unfold send_game_state.
  destruct (_ || _) eqn:G1.
  { split; [assumption|]. intros _. apply orb_true_iff in G1 as [G|G];
      [left; now apply Z.eqb_eq | right; left; now apply Z.ltb_lt]. }
  destruct (_ <? wl + ni) eqn:G2.
  { split; [assumption|]. intros _. right; right. now apply Z.ltb_lt. }
  unfold send_all. rewrite Hq. cbn. split; [reflexivity | discriminate].
Qed.

Lemma pass_reliable s s' :
  quota (io s) = None -> loop_iter s = Continue s' -> quota (io s') = None.
Proof.
  intros Hq H. input_shape s.
  - rewrite (loop_iter_eof _ E) in H. discriminate.
  - rewrite (loop_iter_malformed _ _ _ E N) in H. injection H as <-.
    destruct (drain_out (Z.to_nat L) L (set_inp (io s) rest)) as (_ & Q & _).
    cbn [io set_io]. now rewrite Q.
  - destruct (loop_iter_truncated _ E) as (c & F & _). congruence.
  - rewrite (loop_iter_guess _ _ _ E) in H. unfold respond in H.
    destruct (all_revealed _); [discriminate|].
    destruct (_ <=? _); [discriminate|].
    set (s1 := apply_guess _ _) in *.
    destruct (send_game_state_reliable (masked s1) (incorrect s1) (word_len s1)
                (num_incorrect s1) (io s1)) as [Q _].
    { unfold s1. now rewrite apply_guess_io. }
    destruct (send_game_state _ _ _ _ _) as [r c3]. cbn [snd] in Q.
    destruct (r <? 0); [discriminate|]. now injection H as <-.
Qed.

Lemma break_outcome s e s' :
  consistent s -> loop_iter s = Break e s' ->
  match e with
  | Won => masked s' = secret s' /\ ~ In placeholder (masked s')
  | Lost => num_incorrect s' = MAX_INCORRECT /\ In placeholder (masked s')
  | Closed => inp (io s') = [] /\ In placeholder (masked s') /\
              num_incorrect s' < MAX_INCORRECT
  | SendFailed => quota (io s) <> None
  end.
Proof.
  intros C H. input_shape s.
  - rewrite (loop_iter_eof _ E) in H. injection H as <- <-.
    split; [assumption|]. split; apply C.
  - rewrite (loop_iter_malformed _ _ _ E N) in H. discriminate.
  - destruct (loop_iter_truncated _ E) as (c & F & I & _).
    rewrite F in H. injection H as <- <-. cbn [io set_io masked].
    split; [assumption|]. split; apply C.
  - rewrite (loop_iter_guess _ _ _ E) in H.
    set (s0 := set_io s (set_inp (io s) rest)) in *.
    assert (C0 : consistent s0) by (now apply consistent_set_io).
    set (s1 := apply_guess s0 (tolower c)) in *.
    assert (S1 : Forall2 (fun x d => x = placeholder \/ x = d)
                         (masked s1) (secret s1))
      by (apply apply_guess_shape, C0).
    assert (B1 : num_incorrect s1 <= MAX_INCORRECT).
    { apply apply_guess_budget. destruct C0. lia. }
    unfold respond in H.
    destruct (all_revealed (masked s1)) eqn:A.
    + injection H as <- <-.
      destruct (send_final_fields "You Win!" s1) as (F1 & F2 & _).
      rewrite F1, F2. split.
      * apply shape_full; [assumption | now apply all_revealed_true].
      * intros Hp. apply all_revealed_false in Hp. congruence.
    + apply all_revealed_false in A.
      destruct (_ <=? _) eqn:B.
      * injection H as <- <-. apply Z.leb_le in B.
        destruct (send_final_fields "You Lose." s1) as (_ & F2 & F3 & _).
        unfold num_incorrect in *. rewrite F2, F3. split; [lia | assumption].
      * destruct (send_game_state _ _ _ _ _) as [r c3] eqn:Sg.
        destruct (r <? 0) eqn:R; [|discriminate].
        injection H as <- <-. intros Hq.
        destruct (send_game_state_reliable (masked s1) (incorrect s1)
                    (word_len s1) (num_incorrect s1) (io s1)) as [_ G].
        { unfold s1. rewrite apply_guess_io. exact Hq. }
        rewrite Sg in G. specialize (G R).
        apply Z.leb_gt in B.
        pose proof (cons_length _ C0) as Len.
        assert (W1 : word_len s1 = word_len s0)
          by (unfold word_len, s1; now rewrite apply_guess_secret).
        unfold num_incorrect, MAX_INCORRECT, MAX_WORD_LEN in *. lia.
Qed.

(** X22. However a running session ends, the final fields say why.
    After the winning [break] the masked word is the word, with no
    placeholder; after the losing [break] the incorrect list has exactly
    8 letters and a placeholder is left; after the connection-closed
    [break] the input is exhausted with the game undecided.  On a
    connection whose writes do not fail the loop never ends by a failed
    send. *)
Theorem session_endings fuel s e s' :
  in_session s ->
  guess_loop fuel s = Some (e, s') ->
  match e with
  | Won => masked s' = secret s' /\ ~ In placeholder (masked s')
  | Lost => num_incorrect s' = MAX_INCORRECT /\ In placeholder (masked s')
  | Closed => inp (io s') = [] /\ In placeholder (masked s') /\
              num_incorrect s' < MAX_INCORRECT
  | SendFailed => quota (io s) <> None
  end.
Proof.
  intros Hs. apply in_session_consistent in Hs.
  revert s Hs. induction fuel as [|fuel IH]; intros s C; [discriminate|].
  cbn [guess_loop]. destruct (loop_iter s) as [s1|e1 s1] eqn:E.
  - intros H. specialize (IH s1 (pass_consistent _ _ C E) H).
    destruct e; auto. intros Hq. apply IH. now apply (pass_reliable s).
  - intros [= <- <-]. now apply break_outcome.
Qed.

Lemma session_endings_witness :
  exists s',
    guess_loop 9 (cat_session (guess_packets "bdefghij")) = Some (Lost, s') /\
    num_incorrect s' = MAX_INCORRECT /\ In placeholder (masked s').
Proof.
  eexists. split; [vm_compute; reflexivity|].
  exact (session_endings 9 (cat_session (guess_packets "bdefghij")) Lost _
           (cat_in_session _) ltac:(vm_compute; reflexivity)).
Defined.

End Endings.
